(** * State sync client: request dispatch, retry and response validation

    A shallow embedding of [statesync/client.go]: the three response
    validators ([parseLeafsResponse], [parseBlocks], [parseCode]), the
    generic retry loop [get] and the three entry points built on it.

    Go values are modelled as follows.
    - [[]byte] is a list of bytes; [common.Hash] ([32]byte) and
      [ids.ShortID] ([20]byte) are byte lists compared with [=].
    - A function returning [(T, error)] returns a [result T]; one that can
      also panic returns an [outcome T].
    - [interface{}] values handed from a validator to its caller are the
      tagged union [Parsed]; [message.Request] is the tagged union [Request].
    - Everything the client consumes from other packages (codec, transport,
      RLP, Keccak, the trie verifier, the random source) is a field of the
      class [Env]; stateful collaborators thread their state explicitly.
    - Calls that leave the client (marshal, sleep, send, parse, log) are
      recorded, in order, in a list of [event]s returned next to the result. *)

From Stdlib Require Import ZArith Strings.String Strings.Byte Permutation.
From stdpp Require Import base decidable list.

Local Open Scope Z_scope.
#[local] Set Warnings "-register-all".

(** ** Data model *)

Abbreviation bytes := (list byte).
Abbreviation Hash := (list byte) (only parsing).
Abbreviation NodeID := (list byte) (only parsing).

#[global] Instance byte_eq_dec : EqDecision byte := Byte.byte_eq_dec.

(** Error values. [Foreign] stands for an error made by a collaborator and
    identified by its message; the other constructors are the sentinels of
    [client.go] and the errors it builds with [fmt.Errorf], keeping the
    operands that are formatted or wrapped. *)
Inductive error : Type :=
| Foreign (msg : string)
| errEmptyResponse
| errTooManyBlocks
| ErrTooManyLeaves (nkeys limit : Z)
| ErrEmptyKeysNoProof
| ErrProofLenMismatch (nkeys nvals : nat)
| ErrInvalidRangeProof (cause : error)
| ErrUnmarshalResponse (cause : error)
| ErrHashMismatchBlock (got expected : Hash)
| ErrHashMismatchCode (got expected : Hash)
| ErrExceededRetryLimit (attempts : nat) (cause : option error)
| ErrCouldNotGetBlocks (hash : Hash) (cause : error)
| ErrCouldNotGetCode (hash : Hash) (cause : error)
| ErrUnexpectedType.

Inductive result (A : Type) : Type :=
| Ok (a : A)
| Err (e : error).
Arguments Ok {A} a.
Arguments Err {A} e.

Inductive outcome (A : Type) : Type :=
| Done (r : result A)
| Panic (msg : string).
Arguments Done {A} r.
Arguments Panic {A} msg.

(** [Start] is compared with [nil] by the leaf validator, so it is an
    option: [None] is the nil slice, [Some []] an empty non-nil one. *)
Record LeafsRequest : Type := mkLeafsRequest {
  Root : Hash;
  Start : option bytes;
  End : bytes;
  Limit : Z                       (* uint16 *)
}.

Record BlockRequest : Type := mkBlockRequest {
  BlockHash : Hash;
  Height : Z;                     (* uint64 *)
  Parents : Z                     (* uint16 *)
}.

Record CodeRequest : Type := mkCodeRequest {
  CodeHash : Hash
}.

Inductive Request : Type :=
| ReqLeafs (r : LeafsRequest)
| ReqBlock (r : BlockRequest)
| ReqCode (r : CodeRequest).

Record LeafsResponse : Type := mkLeafsResponse {
  Keys : list bytes;
  Vals : list bytes;
  More : bool;
  ProofKeys : list bytes;
  ProofVals : list bytes
}.

Record BlockResponse : Type := mkBlockResponse {
  Blocks : list bytes
}.

Record CodeResponse : Type := mkCodeResponse {
  Data : bytes
}.

Record Version : Type := mkVersion {
  appName : string;
  major : Z;
  minor : Z;
  patch : Z
}.

Definition StateSyncVersion : Version := mkVersion "avalanche" 1 7 7.

(** Modelled from the spec: [memorydb], the transient key-value store that
    holds the proof nodes of one response. A store is a list of bindings
    with at most one binding per key; [Put] on a fresh store never fails. *)
Definition memorydb := list (bytes * bytes).

Definition memorydb_New : memorydb := [].

Definition memorydb_Put (db : memorydb) (key value : bytes) : result memorydb :=
  Ok ((key, value) :: filter (fun kv => kv.1 <> key) db).

(** ** Collaborators *)

Class Env : Type := {
  (* core/types.Block with its two accessors, and rlp.DecodeBytes *)
  Block : Type;
  Block_Hash : Block -> Hash;
  Block_ParentHash : Block -> Hash;
  rlp_DecodeBytes : bytes -> result Block;
  (* crypto.Keccak256Hash *)
  Keccak256Hash : bytes -> Hash;
  (* message.RequestToBytes and codec.Unmarshal at the three response types *)
  RequestToBytes : Request -> result bytes;
  Unmarshal_LeafsResponse : bytes -> result LeafsResponse;
  Unmarshal_BlockResponse : bytes -> result BlockResponse;
  Unmarshal_CodeResponse : bytes -> result CodeResponse;
  (* what the trie decides about a range proof once keys and values pair up *)
  trie_rangeProof :
    Hash -> bytes -> bytes -> list bytes -> list bytes -> option memorydb -> result bool;
  (* peer.Client *)
  Net : Type;
  RequestAny : Version -> bytes -> Net -> result bytes * NodeID * Net;
  SendRequest : NodeID -> bytes -> Net -> result bytes * Net;
  (* the default source of math/rand *)
  Rng : Type;
  rand_Int63 : Rng -> Z * Rng
}.

Section Client.
Context `{E : Env}.

(** Modelled from the spec: [trie.VerifyRangeProof], which is not part of
    this file. It authenticates key/value pairs, so keys and values that do
    not pair up are an error; otherwise the trie decides, and a success
    carries whether leaves exist beyond the last key. *)
Definition VerifyRangeProof (root : Hash) (firstKey lastKey : bytes)
    (keys vals : list bytes) (proof : option memorydb) : result bool :=
  if decide (length keys = length vals)
  then trie_rangeProof root firstKey lastKey keys vals proof
  else Err (Foreign "inconsistent proof data").

Inductive Parsed : Type :=
| PLeafs (r : LeafsResponse)
| PBlocks (bs : list Block)
| PCode (r : CodeResponse).

(** ** Leaf range-proof validator *)

(** Lines 139-143: [for i, proofKey := range ProofKeys { proof.Put(proofKey, ProofVals[i]) }]. *)
Fixpoint putProofs (i : nat) (proofKeys proofVals : list bytes) (proof : memorydb)
    : outcome memorydb :=
  match proofKeys with
  | [] => Done (Ok proof)
  | proofKey :: rest =>
      match proofVals !! i with
      | None => Panic "index out of range"
      | Some v =>
          match memorydb_Put proof proofKey v with
          | Err e => Done (Err e)
          | Ok proof' => putProofs (S i) rest proofVals proof'
          end
      end
  end.

Definition setMore (r : LeafsResponse) (more : bool) : LeafsResponse :=
  mkLeafsResponse (Keys r) (Vals r) more (ProofKeys r) (ProofVals r).

(** Lines 146-170, once [proof] is known. *)
Definition verifyLeafs (leafsRequest : LeafsRequest) (leafsResponse : LeafsResponse)
    (proof : option memorydb) : outcome Parsed :=
  let firstKey :=
    match Start leafsRequest with
    | Some s => s
    | None => replicate (length (End leafsRequest)) x00
    end in
  let lastKey :=
    if decide (0 < length (Keys leafsResponse))%nat
    then default [] (Keys leafsResponse !! (length (Keys leafsResponse) - 1)%nat)
    else End leafsRequest in
  match VerifyRangeProof (Root leafsRequest) firstKey lastKey
          (Keys leafsResponse) (Vals leafsResponse) proof with
  | Err e => Done (Err (ErrInvalidRangeProof e))
  | Ok more => Done (Ok (PLeafs (setMore leafsResponse more)))
  end.

Definition parseLeafsResponse (reqIntf : Request) (data : bytes) : outcome Parsed :=
  match Unmarshal_LeafsResponse data with
  | Err e => Done (Err e)
  | Ok leafsResponse =>
      match reqIntf with
      | ReqLeafs leafsRequest =>
          if (Limit leafsRequest <? Z.of_nat (length (Keys leafsResponse)))
             || (Limit leafsRequest <? Z.of_nat (length (Vals leafsResponse)))
          then Done (Err (ErrTooManyLeaves (Z.of_nat (length (Keys leafsResponse)))
                                           (Limit leafsRequest)))
          else if decide (length (Keys leafsResponse) = 0%nat
                          /\ length (ProofKeys leafsResponse) = 0%nat)
          then Done (Err ErrEmptyKeysNoProof)
          else if decide (0 < length (ProofKeys leafsResponse))%nat
          then
            if decide (length (ProofKeys leafsResponse) <> length (ProofVals leafsResponse))
            then Done (Err (ErrProofLenMismatch (length (ProofKeys leafsResponse))
                                                (length (ProofVals leafsResponse))))
            else
              match putProofs 0 (ProofKeys leafsResponse) (ProofVals leafsResponse)
                      memorydb_New with
              | Panic m => Panic m
              | Done (Err e) => Done (Err e)
              | Done (Ok proof) => verifyLeafs leafsRequest leafsResponse (Some proof)
              end
          else verifyLeafs leafsRequest leafsResponse None
      | _ => Panic "interface conversion: message.Request is not message.LeafsRequest"
      end
  end.

(** ** Block hash-chain validator *)

(** Lines 210-222: decode each entry, compare its hash with the expected
    one, store it at its index and move on to its parent hash. *)
Fixpoint decodeBlocks (blks : list bytes) (hash : Hash) : result (list Block) :=
  match blks with
  | [] => Ok []
  | blkBytes :: rest =>
      match rlp_DecodeBytes blkBytes with
      | Err e => Err (ErrUnmarshalResponse e)
      | Ok block =>
          if decide (Block_Hash block <> hash)
          then Err (ErrHashMismatchBlock (Block_Hash block) hash)
          else
            match decodeBlocks rest (Block_ParentHash block) with
            | Err e => Err e
            | Ok blocks => Ok (block :: blocks)
            end
      end
  end.

Definition parseBlocks (req : Request) (data : bytes) : outcome Parsed :=
  match Unmarshal_BlockResponse data with
  | Err e => Done (Err (ErrUnmarshalResponse e))
  | Ok response =>
      if decide (length (Blocks response) = 0%nat)
      then Done (Err errEmptyResponse)
      else
        match req with
        | ReqBlock blockRequest =>
            if Parents blockRequest <? Z.of_nat (length (Blocks response))
            then Done (Err errTooManyBlocks)
            else
              match decodeBlocks (Blocks response) (BlockHash blockRequest) with
              | Err e => Done (Err e)
              | Ok blocks => Done (Ok (PBlocks blocks))
              end
        | _ => Panic "interface conversion: message.Request is not message.BlockRequest"
        end
  end.

(** ** Code hash validator *)

Definition parseCode (req : Request) (data : bytes) : outcome Parsed :=
  match Unmarshal_CodeResponse data with
  | Err e => Done (Err e)
  | Ok response =>
      if decide (length (Data response) = 0%nat)
      then Done (Err errEmptyResponse)
      else
        let hash := Keccak256Hash (Data response) in
        match req with
        | ReqCode codeRequest =>
            let expected := CodeHash codeRequest in
            if decide (hash <> expected)
            then Done (Err (ErrHashMismatchCode hash expected))
            else Done (Ok (PCode response))
        | _ => Panic "interface conversion: message.Request is not message.CodeRequest"
        end
  end.

(** ** Retry engine *)

Record client : Type := mkClient {
  maxAttempts : nat;              (* uint8 *)
  maxRetryDelay : Z;              (* time.Duration, nanoseconds in an int64 *)
  stateSyncNodes : list NodeID;
  nodeIdx : Z                     (* int *)
}.

Definition NewClient (maxAttempts : nat) (maxRetryDelay : Z)
    (stateSyncNodes : list NodeID) : client :=
  mkClient maxAttempts maxRetryDelay stateSyncNodes 0.

Definition setNodeIdx (c : client) (i : Z) : client :=
  mkClient (maxAttempts c) (maxRetryDelay c) (stateSyncNodes c) i.

Record World : Type := mkWorld {
  net : Net;
  rng : Rng
}.

Inductive event : Type :=
| EvMarshal (request : Request)
| EvSleep (d : Z)
| EvRequestAny (v : Version) (requestBytes : bytes)
| EvRequest (nodeID : NodeID) (requestBytes : bytes)
| EvParse (response : bytes)
| EvLogRequestFailed (nodeID : NodeID) (attempt : nat) (err : error)
| EvLogInvalidResponse (nodeID : NodeID) (attempt : nat) (err : error).

Definition parseResponseFn := Request -> bytes -> outcome Parsed.

(** [rand.Int63n] of math/rand: it panics ([None]) unless [0 < n], and
    otherwise yields a number of [[0, n)] decided by the source. *)
Definition Int63n (n : Z) (g : Rng) : option (Z * Rng) :=
  if n <=? 0 then None
  else let '(r, g') := rand_Int63 g in Some (r mod n, g').

(** Signed 64-bit addition of Go's [int]. *)
Definition int_add (a b : Z) : Z :=
  (a + b + 2 ^ 63) mod 2 ^ 64 - 2 ^ 63.

(** Lines 279-282: the pause before a retry. [None] is the panic of
    [rand.Int63n]; otherwise the new source and the sleep that was made. *)
Definition retryDelay (attempt : nat) (maxRetryDelay : Z) (g : Rng)
    : option (Rng * list event) :=
  if decide (0 < attempt)%nat
  then
    match Int63n maxRetryDelay g with
    | None => None
    | Some (randTime, g') => Some (g', [EvSleep randTime])
    end
  else Some (g, []).

(** Lines 284-297: peer selection and the send. [None] is the panic of an
    index outside [stateSyncNodes]. *)
Definition sendAttempt (c : client) (requestBytes : bytes) (n : Net)
    : option (result bytes * NodeID * client * Net * event) :=
  if decide (length (stateSyncNodes c) = 0%nat)
  then
    let '(response, nodeID, n') := RequestAny StateSyncVersion requestBytes n in
    Some (response, nodeID, c, n', EvRequestAny StateSyncVersion requestBytes)
  else
    let idx := Z.rem (int_add (nodeIdx c) 1) (Z.of_nat (length (stateSyncNodes c))) in
    let c' := setNodeIdx c idx in
    if idx <? 0 then None
    else
      match stateSyncNodes c' !! Z.to_nat idx with
      | None => None
      | Some nodeID =>
          let '(response, n') := SendRequest nodeID requestBytes n in
          Some (response, nodeID, c', n', EvRequest nodeID requestBytes)
      end.

(** Lines 275-313: the attempt loop and the error after it. [remaining] is
    [attempts - attempt]; [err] is the variable [err] of [get], nil ([None])
    until an attempt has failed. *)
Fixpoint attemptLoop (request : Request) (requestBytes : bytes) (attempts : nat)
    (maxRetryDelay : Z) (parseFn : parseResponseFn)
    (remaining attempt : nat) (err : option error) (c : client) (w : World)
    : outcome Parsed * client * World * list event :=
  match remaining with
  | O => (Done (Err (ErrExceededRetryLimit attempts err)), c, w, [])
  | S remaining' =>
      match retryDelay attempt maxRetryDelay (rng w) with
      | None => (Panic "invalid argument to Int63n", c, w, [])
      | Some (g', slept) =>
          match sendAttempt c requestBytes (net w) with
          | None => (Panic "index out of range", c, mkWorld (net w) g', slept)
          | Some (response, nodeID, c', n', sent) =>
              let w' := mkWorld n' g' in
              match response with
              | Err e =>
                  let '(r, c'', w'', tr) :=
                    attemptLoop request requestBytes attempts maxRetryDelay parseFn
                      remaining' (S attempt) (Some e) c' w' in
                  (r, c'', w'', slept ++ sent :: EvLogRequestFailed nodeID attempt e :: tr)
              | Ok payload =>
                  match parseFn request payload with
                  | Panic m => (Panic m, c', w', slept ++ [sent; EvParse payload])
                  | Done (Err e) =>
                      let '(r, c'', w'', tr) :=
                        attemptLoop request requestBytes attempts maxRetryDelay parseFn
                          remaining' (S attempt) (Some e) c' w' in
                      (r, c'', w'',
                       slept ++ sent :: EvParse payload
                             :: EvLogInvalidResponse nodeID attempt e :: tr)
                  | Done (Ok responseIntf) =>
                      (Done (Ok responseIntf), c', w', slept ++ [sent; EvParse payload])
                  end
              end
          end
      end
  end.

Definition get (c : client) (request : Request) (attempts : nat) (maxRetryDelay : Z)
    (parseFn : parseResponseFn) (w : World)
    : outcome Parsed * client * World * list event :=
  match RequestToBytes request with
  | Err e => (Done (Err e), c, w, [EvMarshal request])
  | Ok requestBytes =>
      let '(r, c', w', tr) :=
        attemptLoop request requestBytes attempts maxRetryDelay parseFn
          attempts O None c w in
      (r, c', w', EvMarshal request :: tr)
  end.

(** ** Entry points *)

Definition GetLeafs (c : client) (req : LeafsRequest) (w : World)
    : outcome LeafsResponse * client * World * list event :=
  let '(r, c', w', tr) :=
    get c (ReqLeafs req) (maxAttempts c) (maxRetryDelay c) parseLeafsResponse w in
  match r with
  | Panic m => (Panic m, c', w', tr)
  | Done (Err err) => (Done (Err err), c', w', tr)
  | Done (Ok (PLeafs response)) => (Done (Ok response), c', w', tr)
  | Done (Ok _) => (Done (Err ErrUnexpectedType), c', w', tr)
  end.

Definition GetBlocks (c : client) (hash : Hash) (height : Z) (parents : Z) (w : World)
    : outcome (list Block) * client * World * list event :=
  let req := mkBlockRequest hash height parents in
  let '(r, c', w', tr) :=
    get c (ReqBlock req) (maxAttempts c) (maxRetryDelay c) parseBlocks w in
  match r with
  | Panic m => (Panic m, c', w', tr)
  | Done (Err err) => (Done (Err (ErrCouldNotGetBlocks hash err)), c', w', tr)
  | Done (Ok (PBlocks blocks)) => (Done (Ok blocks), c', w', tr)
  | Done (Ok _) => (Panic "interface conversion: interface {} is not types.Blocks", c', w', tr)
  end.

Definition GetCode (c : client) (hash : Hash) (w : World)
    : outcome bytes * client * World * list event :=
  let req := mkCodeRequest hash in
  let '(r, c', w', tr) :=
    get c (ReqCode req) (maxAttempts c) (maxRetryDelay c) parseCode w in
  match r with
  | Panic m => (Panic m, c', w', tr)
  | Done (Err err) => (Done (Err (ErrCouldNotGetCode hash err)), c', w', tr)
  | Done (Ok (PCode response)) => (Done (Ok (Data response)), c', w', tr)
  | Done (Ok _) =>
      (Panic "interface conversion: interface {} is not message.CodeResponse", c', w', tr)
  end.

End Client.

(** ** Reading a trace *)

(** The request bytes of every send, in order. *)
Fixpoint sentPayloads (tr : list event) : list bytes :=
  match tr with
  | [] => []
  | EvRequestAny _ b :: tr' | EvRequest _ b :: tr' => b :: sentPayloads tr'
  | _ :: tr' => sentPayloads tr'
  end.

(** The number of attempts a trace holds: one per send. *)
Definition attemptsMade (tr : list event) : nat := length (sentPayloads tr).

(** The peers chosen from the fixed set, in order. *)
Fixpoint peersSelected (tr : list event) : list NodeID :=
  match tr with
  | [] => []
  | EvRequest nodeID _ :: tr' => nodeID :: peersSelected tr'
  | _ :: tr' => peersSelected tr'
  end.

Fixpoint anyPeerSends (tr : list event) : nat :=
  match tr with
  | [] => O
  | EvRequestAny _ _ :: tr' => S (anyPeerSends tr')
  | _ :: tr' => anyPeerSends tr'
  end.

Fixpoint marshalCount (tr : list event) : nat :=
  match tr with
  | [] => O
  | EvMarshal _ :: tr' => S (marshalCount tr')
  | _ :: tr' => marshalCount tr'
  end.

(** The errors of the failed attempts, in order, as they were logged. *)
Fixpoint loggedErrors (tr : list event) : list error :=
  match tr with
  | [] => []
  | EvLogRequestFailed _ _ e :: tr' | EvLogInvalidResponse _ _ e :: tr' =>
      e :: loggedErrors tr'
  | _ :: tr' => loggedErrors tr'
  end.

Fixpoint sleeps (tr : list event) : list Z :=
  match tr with
  | [] => []
  | EvSleep d :: tr' => d :: sleeps tr'
  | _ :: tr' => sleeps tr'
  end.

(** The sleeps made before the first send of a trace. *)
Fixpoint sleepsBeforeFirstSend (tr : list event) : list Z :=
  match tr with
  | [] => []
  | EvSleep d :: tr' => d :: sleepsBeforeFirstSend tr'
  | EvRequestAny _ _ :: _ | EvRequest _ _ :: _ => []
  | _ :: tr' => sleepsBeforeFirstSend tr'
  end.

(** The time a trace spends asleep, in nanoseconds. *)
Definition totalSleep (tr : list event) : Z := foldr Z.add 0 (sleeps tr).

(** The attempt numbers of the logged failures, in order. *)
Fixpoint loggedAttempts (tr : list event) : list nat :=
  match tr with
  | [] => []
  | EvLogRequestFailed _ a _ :: tr' | EvLogInvalidResponse _ a _ :: tr' =>
      a :: loggedAttempts tr'
  | _ :: tr' => loggedAttempts tr'
  end.

(** The payloads handed to the validator, in order. *)
Fixpoint parsedPayloads (tr : list event) : list bytes :=
  match tr with
  | [] => []
  | EvParse payload :: tr' => payload :: parsedPayloads tr'
  | _ :: tr' => parsedPayloads tr'
  end.

(** ** The specification's wording of the validators *)

Section SpecWords.
Context `{E : Env}.

(** The entries decode, one by one and in the order received. *)
Definition decodesTo (raws : list bytes) (blocks : list Block) : Prop :=
  Forall2 (fun raw b => rlp_DecodeBytes raw = Ok b) raws blocks.

(** The walk over the decoded sequence: every block's hash is the expected
    one, which then moves to that block's parent hash. *)
Fixpoint linkedFrom (expectedHash : Hash) (blocks : list Block) : Prop :=
  match blocks with
  | [] => True
  | b :: rest => Block_Hash b = expectedHash /\ linkedFrom (Block_ParentHash b) rest
  end.

(** The effective first key: [Start] if present, else the all-zero key as
    long as [End]. *)
Definition effectiveFirstKey (req : LeafsRequest) : bytes :=
  match Start req with
  | Some s => s
  | None => map (fun _ => x00) (End req)
  end.

(** The effective last key: the last returned key if any, else [End]. *)
Definition effectiveLastKey (req : LeafsRequest) (resp : LeafsResponse) : bytes :=
  match last (Keys resp) with
  | Some k => k
  | None => End req
  end.

(** The proof store: absent without proof keys, else the proof keys bound
    to their values, pair by pair. *)
Definition proofStore (resp : LeafsResponse) : option memorydb :=
  match ProofKeys resp with
  | [] => None
  | _ =>
      Some (foldl (fun db kv => (kv.1, kv.2) :: filter (fun b => b.1 <> kv.1) db)
                  [] (zip (ProofKeys resp) (ProofVals resp)))
  end.

(** The checks that precede the verifier. *)
Definition withinLimit (req : LeafsRequest) (resp : LeafsResponse) : Prop :=
  Z.of_nat (length (Keys resp)) <= Limit req /\ Z.of_nat (length (Vals resp)) <= Limit req.

Definition emptyWithoutProof (resp : LeafsResponse) : Prop :=
  Keys resp = [] /\ ProofKeys resp = [].

Definition proofPairsUp (resp : LeafsResponse) : Prop :=
  ProofKeys resp <> [] -> length (ProofKeys resp) = length (ProofVals resp).

(** The rotation cursor points into the fixed peer set (whose length fits
    Go's [int]); [NewClient] with a non-empty set starts there and every
    attempt stays there. *)
Definition cursorInRange (c : client) : Prop :=
  0 <= nodeIdx c < Z.of_nat (length (stateSyncNodes c)) /\
  Z.of_nat (length (stateSyncNodes c)) < 2 ^ 63.

End SpecWords.

(** ** A small concrete environment

    A toy instance of [Env] on which the definitions above can be run:
    blocks are two bytes (own hash, parent hash), the hash of a blob is the
    blob, a leafs response is four counts followed by one-byte entries, the
    trie holds exactly the pairs whose concatenation is the root, the
    network replays a script of replies, and the random source is a
    counter. *)

Record ToyBlock : Type := mkToyBlock {
  toyHash : Hash;
  toyParent : Hash
}.

Definition toyDecodeBlock (raw : bytes) : result ToyBlock :=
  match raw with
  | [h; p] => Ok (mkToyBlock [h] [p])
  | _ => Err (Foreign "rlp: malformed block")
  end.

Fixpoint toyChunks (data : bytes) : list bytes :=
  match data with
  | a :: b :: rest => [a; b] :: toyChunks rest
  | _ => []
  end.

Definition toyEncode (request : Request) : result bytes :=
  match request with
  | ReqLeafs r =>
      if (65535 <? Limit r) then Err (Foreign "codec: limit does not fit uint16")
      else Ok (x00 :: Root r)
  | ReqBlock r => Ok (x01 :: BlockHash r)
  | ReqCode r => Ok (x02 :: CodeHash r)
  end.

Definition toyDecodeLeafs (data : bytes) : result LeafsResponse :=
  match data with
  | nk :: nv :: npk :: npv :: rest =>
      let a := Byte.to_nat nk in
      let b := Byte.to_nat nv in
      let c := Byte.to_nat npk in
      let d := Byte.to_nat npv in
      if decide (length rest = a + b + c + d)%nat
      then Ok (mkLeafsResponse
                 ((fun x => [x]) <$> take a rest)
                 ((fun x => [x]) <$> take b (drop a rest))
                 false
                 ((fun x => [x]) <$> take c (drop (a + b) rest))
                 ((fun x => [x]) <$> take d (drop (a + b + c) rest)))
      else Err (Foreign "codec: wrong length")
  | _ => Err (Foreign "codec: short input")
  end.

Definition toyRoot (keys vals : list bytes) : Hash :=
  concat (zip_with app keys vals).

Definition toyRangeProof (root : Hash) (firstKey lastKey : bytes)
    (keys vals : list bytes) (proof : option memorydb) : result bool :=
  if decide (toyRoot keys vals = root) then Ok false
  else Err (Foreign "trie: invalid proof").

Definition toyReply (script : list (result bytes)) : result bytes * list (result bytes) :=
  match script with
  | [] => (Err (Foreign "peer: no response"), [])
  | r :: rest => (r, rest)
  end.

Definition toyEnv : Env := {|
  Block := ToyBlock;
  Block_Hash := toyHash;
  Block_ParentHash := toyParent;
  rlp_DecodeBytes := toyDecodeBlock;
  Keccak256Hash := fun d => d;
  RequestToBytes := toyEncode;
  Unmarshal_LeafsResponse := toyDecodeLeafs;
  Unmarshal_BlockResponse := fun d => Ok (mkBlockResponse (toyChunks d));
  Unmarshal_CodeResponse := fun d => Ok (mkCodeResponse d);
  trie_rangeProof := toyRangeProof;
  Net := list (result bytes);
  RequestAny := fun _ _ n => let '(r, n') := toyReply n in (r, [x00], n');
  SendRequest := fun _ _ n => toyReply n;
  Rng := Z;
  rand_Int63 := fun g => (g, g + 1)
|}.

(** A response with one leaf, no proof keys and one stray proof value. *)
Definition strayProofValue : bytes := [x01; x01; x00; x01; x0a; x0b; x0c].

Definition strayProofRequest : LeafsRequest :=
  mkLeafsRequest [x0a; x0b] None [xff] 10.

Definition strayProofResponse : LeafsResponse :=
  mkLeafsResponse [[x0a]] [[x0b]] false [] [[x0c]].

(** One leaf with a one-node proof; one leaf whose proof key has no value;
    two keys for one value; and nothing at all. *)
Definition provenLeaf : bytes := [x01; x01; x01; x01; x0a; x0b; x0c; x0d].

Definition provenLeafResponse : LeafsResponse :=
  mkLeafsResponse [[x0a]] [[x0b]] false [[x0c]] [[x0d]].

Definition unpairedProof : bytes := [x01; x01; x01; x00; x0a; x0b; x0c].

Definition unpairedProofResponse : LeafsResponse :=
  mkLeafsResponse [[x0a]] [[x0b]] false [[x0c]] [].

Definition twoKeys : bytes := [x02; x01; x00; x00; x0a; x0b; x0c].

Definition twoKeysResponse : LeafsResponse :=
  mkLeafsResponse [[x0a]; [x0b]] [[x0c]] false [] [].

Definition oneLeafRequest : LeafsRequest :=
  mkLeafsRequest [x0a; x0b] None [xff] 1.

Definition noLeafs : bytes := [x00; x00; x00; x00].

Definition noLeafsResponse : LeafsResponse := mkLeafsResponse [] [] false [] [].

(** Three linked blocks, tip first, and the request for them. *)
Definition threeBlocks : bytes := [x01; x02; x02; x03; x03; x04].

Definition threeBlocksResponse : BlockResponse :=
  mkBlockResponse [[x01; x02]; [x02; x03]; [x03; x04]].

Definition threeBlocksDecoded : list ToyBlock :=
  [mkToyBlock [x01] [x02]; mkToyBlock [x02] [x03]; mkToyBlock [x03] [x04]].

Definition threeBlocksRequest : BlockRequest := mkBlockRequest [x01] 100 3.

(** A request the toy codec cannot encode. *)
Definition unencodable : Request := ReqLeafs (mkLeafsRequest [] None [] 70000).

(** A client with two attempts and no retry delay, one with four attempts
    over three fixed peers, a world where no peer answers, and one where
    the third reply is good. *)
Definition noDelayClient : client := NewClient 2 0 [].

Definition threePeers : client := NewClient 4 5 [[x01]; [x02]; [x03]].

Definition anyPeerClient : client := NewClient 3 5 [].

Definition silentWorld : World (E := toyEnv) := mkWorld (E := toyEnv) [] 0.

Definition flakyWorld : World (E := toyEnv) :=
  mkWorld (E := toyEnv) [Err (Foreign "timeout"); Ok [x01]; Ok [x07; x08]] 3.

(** Worlds whose first reply is the three blocks, the proven leaf, and
    three blocks of which the second does not link; a client with one
    attempt. *)
Definition blocksWorld : World (E := toyEnv) := mkWorld (E := toyEnv) [Ok threeBlocks] 0.

Definition leafWorld : World (E := toyEnv) := mkWorld (E := toyEnv) [Ok provenLeaf] 0.

Definition brokenChain : bytes := [x01; x02; x09; x03; x03; x04].

Definition singleShot : client := NewClient 1 0 [].

(** ** Properties of the validators *)

Section Validators.
Context `{E : Env}.

Lemma decodeBlocks_spec (raws : list bytes) (h : Hash) (blocks : list Block) :
  decodeBlocks raws h = Ok blocks <-> decodesTo raws blocks /\ linkedFrom h blocks.
Proof.
  unfold decodesTo. revert h blocks.
  induction raws as [|raw raws IH]; intros h blocks; simpl.
  - split.
    + intros [= <-]. split; [constructor | exact I].
    + intros [Hd _]. inversion Hd. reflexivity.
  - destruct (rlp_DecodeBytes raw) as [b|e] eqn:Hraw.
    + destruct (decide (Block_Hash b <> h)) as [Hne|Heq].
      * split; [discriminate|].
        intros [Hd Hl]. inversion Hd as [|? b' ? bs' Hb Hrest]; subst.
        simpl in Hl. destruct Hl as [Hh _]. congruence.
      * apply dec_stable in Heq.
        destruct (decodeBlocks raws (Block_ParentHash b)) as [bs|e] eqn:Hrec.
        -- destruct (proj1 (IH _ _) Hrec) as [Hd Hl]. split.
           ++ intros [= <-]. split; [by constructor | by split].
           ++ intros [Hd' Hl']. inversion Hd' as [|? b' ? bs' Hb Hrest]; subst.
              assert (b' = b) as -> by congruence.
              simpl in Hl'. destruct Hl' as [_ Hl'].
              assert (decodeBlocks raws (Block_ParentHash b) = Ok bs') as Hbs'
                by (apply IH; by split).
              congruence.
        -- split; [discriminate|].
           intros [Hd' Hl']. inversion Hd' as [|? b' ? bs' Hb Hrest]; subst.
           assert (b' = b) as -> by congruence.
           simpl in Hl'. destruct Hl' as [_ Hl'].
           assert (decodeBlocks raws (Block_ParentHash b) = Ok bs') as Hbs'
             by (apply IH; by split).
           congruence.
    + split; [discriminate|].
      intros [Hd _]. inversion Hd; subst. congruence.
Qed.

(** C3. The block validator accepts a decoded response exactly when the
    block sequence is non-empty, no longer than [Parents], and its entries
    decode, in the order received, to blocks that pass the hash walk started
    at the requested hash; what it returns is that decoded sequence. *)
Theorem parseBlocks_accepts_iff (req : BlockRequest) (data : bytes)
    (response : BlockResponse) (v : Parsed) :
  Unmarshal_BlockResponse data = Ok response ->
  parseBlocks (ReqBlock req) data = Done (Ok v) <->
  exists blocks : list Block,
    v = PBlocks blocks /\
    Blocks response <> [] /\
    Z.of_nat (length (Blocks response)) <= Parents req /\
    decodesTo (Blocks response) blocks /\
    linkedFrom (BlockHash req) blocks.
Proof.
  intros Hdec. unfold parseBlocks. rewrite Hdec.
  destruct (decide (length (Blocks response) = 0%nat)) as [Hz|Hnz].
  - split; [discriminate|].
    intros (blocks & _ & Hne & _). destruct (Blocks response); [done | discriminate].
  - destruct (Z.ltb_spec (Parents req) (Z.of_nat (length (Blocks response)))) as [Hlt|Hle].
    + split; [discriminate|]. intros (blocks & _ & _ & Hle & _). lia.
    + destruct (decodeBlocks (Blocks response) (BlockHash req)) as [bs|e] eqn:Hrec.
      * apply decodeBlocks_spec in Hrec as Hspec. destruct Hspec as [Hd Hl]. split.
        -- intros [= <-]. exists bs. repeat split; try done.
           intros Hnil. rewrite Hnil in Hnz. done.
        -- intros (blocks & -> & _ & _ & Hd' & Hl').
           assert (decodeBlocks (Blocks response) (BlockHash req) = Ok blocks) as Hb
             by (apply decodeBlocks_spec; by split).
           congruence.
      * split; [discriminate|].
        intros (blocks & _ & _ & _ & Hd' & Hl').
        assert (decodeBlocks (Blocks response) (BlockHash req) = Ok blocks) as Hb
          by (apply decodeBlocks_spec; by split).
        congruence.
Qed.

Lemma VerifyRangeProof_pairs root firstKey lastKey keys vals proof more :
  VerifyRangeProof root firstKey lastKey keys vals proof = Ok more ->
  length keys = length vals.
Proof. unfold VerifyRangeProof. by case_decide. Qed.

Lemma verifyLeafs_accepts req resp proof v :
  verifyLeafs req resp proof = Done (Ok v) ->
  exists more, v = PLeafs (setMore resp more) /\ length (Keys resp) = length (Vals resp).
Proof.
  unfold verifyLeafs.
  destruct (VerifyRangeProof _ _ _ _ _ _) as [more|e] eqn:Hv; [|discriminate].
  intros [= <-]. exists more. split; [done|]. by eapply VerifyRangeProof_pairs.
Qed.

(** What an accepted leafs response has passed, check by check. *)
Lemma parseLeafsResponse_accepts req data resp v :
  Unmarshal_LeafsResponse data = Ok resp ->
  parseLeafsResponse (ReqLeafs req) data = Done (Ok v) ->
  withinLimit req resp /\ ~ emptyWithoutProof resp /\ proofPairsUp resp /\
  exists more, v = PLeafs (setMore resp more) /\ length (Keys resp) = length (Vals resp).
Proof.
  intros Hdec. unfold parseLeafsResponse. rewrite Hdec.
  destruct (Z.ltb_spec (Limit req) (Z.of_nat (length (Keys resp)))) as [?|Hk];
    [discriminate|].
  destruct (Z.ltb_spec (Limit req) (Z.of_nat (length (Vals resp)))) as [?|Hv];
    [discriminate|].
  simpl. case_decide as Hempty; [discriminate|].
  assert (~ emptyWithoutProof resp) as Hne.
  { intros [Hk0 Hp0]. apply Hempty. by rewrite Hk0, Hp0. }
  case_decide as Hpk.
  - case_decide as Hlen; [discriminate|].
    destruct (putProofs _ _ _ _) as [[proof|e]|m]; try discriminate.
    intros Hacc. apply verifyLeafs_accepts in Hacc.
    repeat split; try done. by intros _.
  - intros Hacc. apply verifyLeafs_accepts in Hacc.
    repeat split; try done.
    intros Hnil. destruct (ProofKeys resp); [done | simpl in Hpk; lia].
Qed.

(** C4. A decoded leafs response with more keys or more values than
    [Limit] is rejected with the too-many-leaves error, and every response
    the validator accepts has as many keys as values, both at most [Limit]. *)
Theorem parseLeafsResponse_limit (req : LeafsRequest) (data : bytes)
    (resp : LeafsResponse) :
  Unmarshal_LeafsResponse data = Ok resp ->
  (Limit req < Z.of_nat (length (Keys resp)) \/
   Limit req < Z.of_nat (length (Vals resp)) ->
   parseLeafsResponse (ReqLeafs req) data =
     Done (Err (ErrTooManyLeaves (Z.of_nat (length (Keys resp))) (Limit req)))) /\
  (forall v, parseLeafsResponse (ReqLeafs req) data = Done (Ok v) ->
     exists more, v = PLeafs (setMore resp more) /\
     length (Keys resp) = length (Vals resp) /\
     Z.of_nat (length (Keys resp)) <= Limit req /\
     Z.of_nat (length (Vals resp)) <= Limit req).
Proof.
  intros Hdec. split.
  - intros Hover. unfold parseLeafsResponse. rewrite Hdec.
    destruct (Z.ltb_spec (Limit req) (Z.of_nat (length (Keys resp)))); [done|].
    destruct (Z.ltb_spec (Limit req) (Z.of_nat (length (Vals resp)))); [done|].
    lia.
  - intros v Hacc.
    destruct (parseLeafsResponse_accepts _ _ _ _ Hdec Hacc)
      as ([Hk Hv] & _ & _ & more & -> & Hlen).
    exists more. done.
Qed.

(** C5 (as amended). When proof keys are present, a decoded leafs response
    whose proof keys and proof values differ in number is rejected, and an
    accepted one has as many proof values as proof keys. Without proof keys
    the proof values are not looked at. *)
Theorem parseLeafsResponse_proof_pairs (req : LeafsRequest) (data : bytes)
    (resp : LeafsResponse) :
  Unmarshal_LeafsResponse data = Ok resp ->
  ProofKeys resp <> [] ->
  (length (ProofKeys resp) <> length (ProofVals resp) ->
   exists e, parseLeafsResponse (ReqLeafs req) data = Done (Err e)) /\
  (forall v, parseLeafsResponse (ReqLeafs req) data = Done (Ok v) ->
   length (ProofKeys resp) = length (ProofVals resp)).
Proof.
  intros Hdec Hpk. split.
  - intros Hlen. unfold parseLeafsResponse. rewrite Hdec.
    destruct (_ || _); [by eexists|].
    case_decide as Hempty; [by eexists|].
    case_decide as Hpos.
    + case_decide; [by eexists | done].
    + destruct (ProofKeys resp); [done | simpl in Hpos; lia].
  - intros v Hacc.
    destruct (parseLeafsResponse_accepts _ _ _ _ Hdec Hacc) as (_ & _ & Hpairs & _).
    by apply Hpairs.
Qed.

(** C6. A decoded leafs response with no keys and no proof keys is
    rejected, and an accepted response with no keys carries a non-empty
    proof: proof keys, and as many proof values. *)
Theorem parseLeafsResponse_empty_keys (req : LeafsRequest) (data : bytes)
    (resp : LeafsResponse) :
  Unmarshal_LeafsResponse data = Ok resp ->
  Keys resp = [] ->
  (ProofKeys resp = [] ->
   exists e, parseLeafsResponse (ReqLeafs req) data = Done (Err e) /\
             (e = ErrEmptyKeysNoProof \/ e = ErrTooManyLeaves 0 (Limit req))) /\
  (forall v, parseLeafsResponse (ReqLeafs req) data = Done (Ok v) ->
   ProofKeys resp <> [] /\ ProofVals resp <> [] /\
   length (ProofKeys resp) = length (ProofVals resp)).
Proof.
  intros Hdec Hkeys. split.
  - intros Hproof. unfold parseLeafsResponse. rewrite Hdec, Hkeys, Hproof. simpl.
    destruct (_ || _); [eexists; split; [done | by right]|].
    eexists; split; [done | by left].
  - intros v Hacc.
    destruct (parseLeafsResponse_accepts _ _ _ _ Hdec Hacc) as (_ & Hne & Hpairs & _).
    assert (ProofKeys resp <> []) as Hpk.
    { intros Hnil. apply Hne. by split. }
    specialize (Hpairs Hpk). repeat split; try done.
    intros Hnil. rewrite Hnil in Hpairs.
    destruct (ProofKeys resp); [done | discriminate].
Qed.

Lemma putProofs_zip (proofKeys proofVals : list bytes) (i : nat) (db : memorydb) :
  length (drop i proofVals) = length proofKeys ->
  putProofs i proofKeys proofVals db =
    Done (Ok (foldl (fun db kv => (kv.1, kv.2) :: filter (fun b => b.1 <> kv.1) db)
                    db (zip proofKeys (drop i proofVals)))).
Proof.
  revert i db. induction proofKeys as [|k rest IH]; intros i db Hlen; simpl.
  - by destruct (drop i proofVals).
  - destruct (proofVals !! i) as [v|] eqn:Hi.
    + rewrite (drop_S _ _ _ Hi) in Hlen |- *. simpl in Hlen.
      unfold memorydb_Put. rewrite IH by lia. done.
    + apply lookup_ge_None in Hi. rewrite length_drop in Hlen. simpl in Hlen. lia.
Qed.

Lemma replicate_const_map {A B} (l : list A) (x : B) :
  replicate (length l) x = map (fun _ => x) l.
Proof. induction l; simpl; congruence. Qed.

Lemma lastKey_last (keys : list bytes) (endKey : bytes) :
  (if decide (0 < length keys)%nat
   then default [] (keys !! (length keys - 1)%nat) else endKey) =
  match last keys with Some k => k | None => endKey end.
Proof.
  rewrite last_lookup.
  destruct keys as [|k keys]; [done|].
  case_decide as Hpos; [|simpl in Hpos; lia].
  replace (length (k :: keys) - 1)%nat with (pred (length (k :: keys))) by (simpl; lia).
  destruct ((k :: keys) !! pred (length (k :: keys))) eqn:Hl; [done|].
  apply lookup_ge_None_1 in Hl. simpl in Hl. lia.
Qed.

Lemma verifyLeafs_spec req resp proof :
  verifyLeafs req resp proof =
    match VerifyRangeProof (Root req) (effectiveFirstKey req) (effectiveLastKey req resp)
            (Keys resp) (Vals resp) proof with
    | Ok more => Done (Ok (PLeafs (setMore resp more)))
    | Err e => Done (Err (ErrInvalidRangeProof e))
    end.
Proof.
  unfold verifyLeafs, effectiveFirstKey, effectiveLastKey.
  rewrite lastKey_last, replicate_const_map.
  by destruct (VerifyRangeProof _ _ _ _ _ _).
Qed.

(** C7. For a decoded leafs response that passes the checks before the
    verifier (the sizes against [Limit], no empty keys without proof, proof
    keys pairing with proof values), the validator's answer is the range
    proof verifier's on the effective first key ([Start] if present, else
    zeros as long as [End]) and the effective last key (the last returned
    key, else [End]): on success the response with [Keys] and [Vals]
    untouched and [More] set to the verifier's answer, on failure the
    invalid-range-proof error. *)
Theorem parseLeafsResponse_verifies (req : LeafsRequest) (data : bytes)
    (resp : LeafsResponse) :
  Unmarshal_LeafsResponse data = Ok resp ->
  withinLimit req resp ->
  ~ emptyWithoutProof resp ->
  proofPairsUp resp ->
  parseLeafsResponse (ReqLeafs req) data =
    match VerifyRangeProof (Root req) (effectiveFirstKey req) (effectiveLastKey req resp)
            (Keys resp) (Vals resp) (proofStore resp) with
    | Ok more =>
        Done (Ok (PLeafs (mkLeafsResponse (Keys resp) (Vals resp) more
                            (ProofKeys resp) (ProofVals resp))))
    | Err e => Done (Err (ErrInvalidRangeProof e))
    end.
Proof.
  intros Hdec [Hk Hv] Hne Hpairs. unfold parseLeafsResponse. rewrite Hdec.
  destruct (Z.ltb_spec (Limit req) (Z.of_nat (length (Keys resp)))); [lia|].
  destruct (Z.ltb_spec (Limit req) (Z.of_nat (length (Vals resp)))); [lia|].
  simpl. case_decide as Hempty.
  { exfalso. apply Hne. destruct Hempty as [Hk0 Hp0]. split.
    - by destruct (Keys resp).
    - by destruct (ProofKeys resp). }
  unfold proofStore. case_decide as Hpos.
  - assert (ProofKeys resp <> []) as Hpk.
    { intros Hnil. rewrite Hnil in Hpos. simpl in Hpos. lia. }
    specialize (Hpairs Hpk). case_decide; [done|].
    rewrite putProofs_zip by (by rewrite drop_0). rewrite drop_0.
    rewrite verifyLeafs_spec. unfold setMore.
    destruct (ProofKeys resp); [done | reflexivity].
  - rewrite verifyLeafs_spec. unfold setMore.
    destruct (ProofKeys resp); [reflexivity | simpl in Hpos; lia].
Qed.

(** The code validator on a decoded response, case by case. *)
Lemma parseCode_spec (h : Hash) (data : bytes) (resp : CodeResponse) :
  Unmarshal_CodeResponse data = Ok resp ->
  parseCode (ReqCode (mkCodeRequest h)) data =
    if decide (Data resp = []) then Done (Err errEmptyResponse)
    else if decide (Keccak256Hash (Data resp) = h) then Done (Ok (PCode resp))
    else Done (Err (ErrHashMismatchCode (Keccak256Hash (Data resp)) h)).
Proof.
  intros Hdec. unfold parseCode. rewrite Hdec. simpl.
  destruct (Data resp) as [|x d] eqn:Hd; simpl; [done|].
  repeat case_decide; done.
Qed.

(** On a request of its own kind no validator panics. *)
Lemma parseCode_no_panic (r : CodeRequest) (payload : bytes) (m : string) :
  parseCode (ReqCode r) payload <> Panic m.
Proof.
  unfold parseCode. destruct (Unmarshal_CodeResponse payload); [|done].
  repeat case_decide; done.
Qed.

Lemma parseBlocks_no_panic (r : BlockRequest) (payload : bytes) (m : string) :
  parseBlocks (ReqBlock r) payload <> Panic m.
Proof.
  unfold parseBlocks. destruct (Unmarshal_BlockResponse payload); [|done].
  case_decide; [done|]. destruct (_ <? _); [done|].
  by destruct (decodeBlocks _ _).
Qed.

Lemma parseLeafsResponse_no_panic (r : LeafsRequest) (payload : bytes) (m : string) :
  parseLeafsResponse (ReqLeafs r) payload <> Panic m.
Proof.
  unfold parseLeafsResponse.
  destruct (Unmarshal_LeafsResponse payload) as [resp|]; [|done].
  destruct (_ || _); [done|]. case_decide; [done|].
  assert (forall proof, verifyLeafs r resp proof <> Panic m) as Hverify.
  { intros proof. rewrite verifyLeafs_spec. by destruct (VerifyRangeProof _ _ _ _ _ _). }
  case_decide; [|done]. case_decide as Hlen; [done|].
  rewrite putProofs_zip by (rewrite drop_0; lia). done.
Qed.

End Validators.

(** ** Properties of the retry engine *)

Section Retry.
Context `{E : Env}.

Lemma retryDelay_inv (attempt : nat) (d : Z) (g g' : Rng) (slept : list event) :
  retryDelay attempt d g = Some (g', slept) ->
  (attempt = O /\ slept = [] /\ g' = g) \/
  (exists t, (0 < attempt)%nat /\ 0 < d /\ 0 <= t < d /\ slept = [EvSleep t]).
Proof.
  unfold retryDelay. case_decide as Hpos.
  - unfold Int63n. destruct (Z.leb_spec d 0) as [|Hd]; [discriminate|].
    destruct (rand_Int63 g) as [raw g1]. intros [= <- <-].
    right. exists (raw mod d). repeat split; try done; apply Z.mod_pos_bound; lia.
  - intros [= <- <-]. left. repeat split; try done. lia.
Qed.

Lemma sendAttempt_inv (c c1 : client) (b : bytes) (n n1 : Net)
    (response : result bytes) (nodeID : NodeID) (sent : event) :
  sendAttempt c b n = Some (response, nodeID, c1, n1, sent) ->
  (stateSyncNodes c = [] /\ c1 = c /\ sent = EvRequestAny StateSyncVersion b) \/
  (stateSyncNodes c <> [] /\ sent = EvRequest nodeID b /\
   c1 = setNodeIdx c (Z.rem (int_add (nodeIdx c) 1) (Z.of_nat (length (stateSyncNodes c)))) /\
   0 <= nodeIdx c1 /\
   stateSyncNodes c !! Z.to_nat (nodeIdx c1) = Some nodeID).
Proof.
  unfold sendAttempt. case_decide as Hlen.
  - destruct (RequestAny _ _ _) as [[resp' id'] n']. intros [= <- <- <- <- <-].
    left. repeat split; try done. by destruct (stateSyncNodes c).
  - set (idx := Z.rem _ _).
    destruct (Z.ltb_spec idx 0) as [|Hidx]; [discriminate|].
    simpl. destruct (stateSyncNodes c !! Z.to_nat idx) as [id'|] eqn:Hnode; [|discriminate].
    destruct (SendRequest _ _ _) as [resp' n']. intros [= <- <- <- <- <-].
    right. repeat split; try done. intros Hnil. by rewrite Hnil in Hlen.
Qed.

(** One round of the case analysis the loop body makes. *)
Ltac loop_step Hrun :=
  simpl in Hrun;
  let g1 := fresh "g1" in
  let slept := fresh "slept" in
  let Hdelay := fresh "Hdelay" in
  destruct (retryDelay _ _ _) as [[g1 slept]|] eqn:Hdelay;
  [ let response := fresh "response" in
    let nodeID := fresh "nodeID" in
    let c1 := fresh "c1" in
    let n1 := fresh "n1" in
    let sent := fresh "sent" in
    let Hsend := fresh "Hsend" in
    destruct (sendAttempt _ _ _) as [[[[[response nodeID] c1] n1] sent]|] eqn:Hsend;
    [ let payload := fresh "payload" in
      let e := fresh "e" in
      let Hrec := fresh "Hrec" in
      destruct response as [payload|e];
      [ let Hparse := fresh "Hparse" in
        let v := fresh "v" in
        let m := fresh "m" in
        destruct (_ _ payload) as [[v|e]|m] eqn:Hparse;
        [ | destruct (attemptLoop _ _ _ _ _ _ _ _ _ _) as [[[? ?] ?] ?] eqn:Hrec | ]
      | destruct (attemptLoop _ _ _ _ _ _ _ _ _ _) as [[[? ?] ?] ?] eqn:Hrec ]
    | ]
  | ];
  injection Hrun as <- <- <- <-.



(** Every send of the loop carries the bytes it was given, and the loop
    marshals nothing. *)
Lemma attemptLoop_payloads request requestBytes attempts delay (parseFn : parseResponseFn)
    remaining attempt err c w r c' w' tr :
  attemptLoop request requestBytes attempts delay parseFn remaining attempt err c w
    = (r, c', w', tr) ->
  sentPayloads tr = replicate (attemptsMade tr) requestBytes /\ marshalCount tr = O.
Proof.
  revert attempt err c w r c' w' tr.
  induction remaining as [|remaining IH]; intros attempt err c w r c' w' tr Hrun.
  - simpl in Hrun. by injection Hrun as <- <- <- <-.
  - loop_step Hrun;
      try (apply retryDelay_inv in Hdelay as [(_ & -> & _)|(t & _ & _ & _ & ->)]);
      try (apply sendAttempt_inv in Hsend as [(_ & _ & ->)|(_ & -> & _)]);
      try (apply IH in Hrec as [Hrec1 Hrec2]);
      unfold attemptsMade in *; simpl; split; congruence.
Qed.

(** C9. A call marshals its request once, first of all; when that fails
    the call returns the error with no attempt made and nothing changed,
    and otherwise every attempt sends the bytes of that one encoding. *)
Theorem get_encodes_once (c : client) (request : Request) (attempts : nat) (delay : Z)
    (parseFn : parseResponseFn) (w : World) (r : outcome Parsed) (c' : client)
    (w' : World) (tr : list event) :
  get c request attempts delay parseFn w = (r, c', w', tr) ->
  marshalCount tr = 1%nat /\
  head tr = Some (EvMarshal request) /\
  match RequestToBytes request with
  | Err e =>
      r = Done (Err e) /\ c' = c /\ w' = w /\
      tr = [EvMarshal request] /\ attemptsMade tr = O
  | Ok requestBytes =>
      sentPayloads tr = replicate (attemptsMade tr) requestBytes
  end.
Proof.
  unfold get. destruct (RequestToBytes request) as [b|e].
  - destruct (attemptLoop _ _ _ _ _ _ _ _ _ _) as [[[r2 c2] w2] tr2] eqn:Hrec.
    intros [= <- <- <- <-].
    apply attemptLoop_payloads in Hrec as [Hsent Hmarshal].
    unfold attemptsMade in *. simpl. rewrite Hmarshal. done.
  - intros [= <- <- <- <-]. done.
Qed.


(** *** Round-robin over a fixed peer set *)

Lemma int_add_small (a : Z) : 0 <= a -> a + 1 < 2 ^ 63 -> int_add a 1 = a + 1.
Proof.
  intros Ha Hb. unfold int_add.
  rewrite Z.mod_small; lia.
Qed.

Lemma sendAttempt_fixed (c : client) (b : bytes) (n : Net) :
  cursorInRange c ->
  let next := (nodeIdx c + 1) mod Z.of_nat (length (stateSyncNodes c)) in
  exists response nodeID n1,
    sendAttempt c b n =
      Some (response, nodeID, setNodeIdx c next, n1, EvRequest nodeID b) /\
    stateSyncNodes c !! Z.to_nat next = Some nodeID /\
    cursorInRange (setNodeIdx c next).
Proof.
  intros [Hidx Hlen] next. unfold sendAttempt.
  rewrite decide_False by (intros Hz; rewrite Hz in Hidx; simpl in Hidx; lia).
  rewrite int_add_small by lia.
  rewrite Z.rem_mod_nonneg by lia. fold next.
  assert (0 <= next < Z.of_nat (length (stateSyncNodes c))) as Hnext
    by (apply Z.mod_pos_bound; lia).
  destruct (Z.ltb_spec next 0) as [|_]; [lia|]. simpl.
  destruct (lookup_lt_is_Some_2 (stateSyncNodes c) (Z.to_nat next)) as [nodeID Hnode];
    [lia|].
  rewrite Hnode. destruct (SendRequest nodeID b n) as [response n1].
  exists response, nodeID, n1. repeat split; simpl; try done; lia.
Qed.

Lemma sendAttempt_any (c : client) (b : bytes) (n : Net) :
  stateSyncNodes c = [] ->
  exists response nodeID n1,
    sendAttempt c b n = Some (response, nodeID, c, n1, EvRequestAny StateSyncVersion b).
Proof.
  intros Hnil. unfold sendAttempt. rewrite Hnil. simpl.
  destruct (RequestAny _ _ _) as [[response nodeID] n1]. by exists response, nodeID, n1.
Qed.

(** The loop's walk over the fixed set: the peer of the [i]-th send, the
    cursor it leaves behind, and no use of the any-peer primitive. *)
Lemma attemptLoop_rotation request requestBytes attempts delay (parseFn : parseResponseFn)
    remaining attempt err c w r c' w' tr :
  cursorInRange c ->
  attemptLoop request requestBytes attempts delay parseFn remaining attempt err c w
    = (r, c', w', tr) ->
  let N := Z.of_nat (length (stateSyncNodes c)) in
  anyPeerSends tr = O /\
  length (peersSelected tr) = attemptsMade tr /\
  stateSyncNodes c' = stateSyncNodes c /\
  nodeIdx c' = (nodeIdx c + Z.of_nat (attemptsMade tr)) mod N /\
  forall i : nat, (i < attemptsMade tr)%nat ->
    peersSelected tr !! i =
    stateSyncNodes c !! Z.to_nat ((nodeIdx c + 1 + Z.of_nat i) mod N).
Proof.
  revert attempt err c w r c' w' tr.
  induction remaining as [|remaining IH]; intros attempt err c w r c' w' tr Hok Hrun;
    cbv zeta.
  - simpl in Hrun. injection Hrun as <- <- <- <-. unfold attemptsMade. simpl.
    repeat split; try done; [|intros i Hi; lia].
    rewrite Z.add_0_r, Z.mod_small; [done | apply Hok].
  - destruct (sendAttempt_fixed c requestBytes (net w) Hok)
      as (response & nodeID & n1 & Hsend & Hnode & Hok1).
    pose proof Hok as [Hidx Hlen].
    remember (Z.of_nat (length (stateSyncNodes c))) as N eqn:HN.
    remember (setNodeIdx c ((nodeIdx c + 1) mod N)) as c1 eqn:Hc1.
    assert (stateSyncNodes c1 = stateSyncNodes c) as Hnodes1 by (by subst c1).
    assert (nodeIdx c1 = (nodeIdx c + 1) mod N) as Hidx1 by (by subst c1).
    assert (forall k : nat,
              ((nodeIdx c + 1) mod N + Z.of_nat k) mod N
              = (nodeIdx c + Z.of_nat (S k)) mod N) as Hshift.
    { intros k. rewrite Zplus_mod_idemp_l. f_equal. lia. }
    assert (forall i : nat,
              ((nodeIdx c + 1) mod N + 1 + Z.of_nat i) mod N
              = (nodeIdx c + 1 + Z.of_nat (S i)) mod N) as Hshift1.
    { intros k. rewrite <- Z.add_assoc, Zplus_mod_idemp_l. f_equal. lia. }
    assert (forall tr2 c2,
              anyPeerSends tr2 = O /\
              length (peersSelected tr2) = attemptsMade tr2 /\
              stateSyncNodes c2 = stateSyncNodes c1 /\
              nodeIdx c2 = (nodeIdx c1 + Z.of_nat (attemptsMade tr2))
                             mod Z.of_nat (length (stateSyncNodes c1)) /\
              (forall i : nat, (i < attemptsMade tr2)%nat ->
                 peersSelected tr2 !! i =
                 stateSyncNodes c1
                   !! Z.to_nat ((nodeIdx c1 + 1 + Z.of_nat i)
                                  mod Z.of_nat (length (stateSyncNodes c1)))) ->
              forall pre,
              anyPeerSends pre = O -> peersSelected pre = [] -> sentPayloads pre = [] ->
              let tr := EvRequest nodeID requestBytes :: pre ++ tr2 in
              anyPeerSends tr = O /\
              length (peersSelected tr) = attemptsMade tr /\
              stateSyncNodes c2 = stateSyncNodes c /\
              nodeIdx c2 = (nodeIdx c + Z.of_nat (attemptsMade tr)) mod N /\
              (forall i : nat, (i < attemptsMade tr)%nat ->
                 peersSelected tr !! i =
                 stateSyncNodes c !! Z.to_nat ((nodeIdx c + 1 + Z.of_nat i) mod N)))
      as Hglue.
    { intros tr2 c2 (Hany & Hsel & Hnodes & Hcur & Hpeers) pre Hp1 Hp2 Hp3.
      rewrite Hnodes1, <- HN, Hidx1 in *.
      assert (anyPeerSends (pre ++ tr2) = O /\
              peersSelected (pre ++ tr2) = peersSelected tr2 /\
              sentPayloads (pre ++ tr2) = sentPayloads tr2) as (Ha & Hb & Hc).
      { clear -Hp1 Hp2 Hp3 Hany.
        induction pre as [|ev pre IHpre]; [done|].
        destruct ev; simpl in *; try discriminate; auto. }
      unfold attemptsMade in *. simpl. rewrite Ha, Hb, Hc.
      repeat split; try done; try congruence; try (by rewrite Hcur, Hshift).
      intros [|i] Hi; simpl.
      - rewrite <- Hnode. do 3 f_equal. lia.
      - rewrite Hpeers, Hshift1 by lia. done. }
    simpl in Hrun. rewrite Hsend in Hrun.
    destruct (retryDelay _ _ _) as [[g1 slept]|] eqn:Hdelay.
    + assert (anyPeerSends slept = O /\ peersSelected slept = [] /\
              sentPayloads slept = [] /\
              forall rest, anyPeerSends (slept ++ rest) = anyPeerSends rest /\
                           peersSelected (slept ++ rest) = peersSelected rest /\
                           sentPayloads (slept ++ rest) = sentPayloads rest)
        as (_ & _ & _ & Hslept).
      { apply retryDelay_inv in Hdelay as [(_ & -> & _)|(t & _ & _ & _ & ->)]; done. }
      destruct response as [payload|e].
      * destruct (parseFn request payload) as [[v|e]|m] eqn:Hparse.
        -- injection Hrun as <- <- <- <-.
           destruct (Hslept [EvRequest nodeID requestBytes; EvParse payload])
             as (Hs1 & Hs2 & Hs3).
           unfold attemptsMade. rewrite Hs1, Hs2, Hs3. simpl.
           rewrite Hnodes1, Hidx1. repeat split; try done.
           intros [|i] Hi; simpl in *; [|lia].
           rewrite <- Hnode. do 3 f_equal. lia.
        -- destruct (attemptLoop _ _ _ _ _ _ _ _ _ _) as [[[r2 c2] w2] tr2] eqn:Hrec.
           injection Hrun as <- <- <- <-.
           apply IH in Hrec; [|done].
           specialize (Hglue tr2 c2 Hrec
                         [EvParse payload; EvLogInvalidResponse nodeID attempt e]
                         eq_refl eq_refl eq_refl).
           cbv zeta in Hglue. simpl app in Hglue.
           destruct (Hslept (EvRequest nodeID requestBytes :: EvParse payload
                               :: EvLogInvalidResponse nodeID attempt e :: tr2))
             as (Hs1 & Hs2 & Hs3).
           unfold attemptsMade in *. rewrite Hs1, Hs2, Hs3. exact Hglue.
        -- injection Hrun as <- <- <- <-.
           destruct (Hslept [EvRequest nodeID requestBytes; EvParse payload])
             as (Hs1 & Hs2 & Hs3).
           unfold attemptsMade. rewrite Hs1, Hs2, Hs3. simpl.
           rewrite Hnodes1, Hidx1. repeat split; try done.
           intros [|i] Hi; simpl in *; [|lia].
           rewrite <- Hnode. do 3 f_equal. lia.
      * destruct (attemptLoop _ _ _ _ _ _ _ _ _ _) as [[[r2 c2] w2] tr2] eqn:Hrec.
        injection Hrun as <- <- <- <-.
        apply IH in Hrec; [|done].
        specialize (Hglue tr2 c2 Hrec [EvLogRequestFailed nodeID attempt e]
                      eq_refl eq_refl eq_refl).
        cbv zeta in Hglue. simpl app in Hglue.
        destruct (Hslept (EvRequest nodeID requestBytes
                            :: EvLogRequestFailed nodeID attempt e :: tr2))
          as (Hs1 & Hs2 & Hs3).
        unfold attemptsMade in *. rewrite Hs1, Hs2, Hs3. exact Hglue.
    + injection Hrun as <- <- <- <-. unfold attemptsMade. simpl.
      repeat split; try done; [|intros i Hi; lia].
      rewrite Z.add_0_r, Z.mod_small; [done | lia].
Qed.

Lemma rotate_Permutation {A} (n : nat) (l : list A) : rotate n l ≡ₚ l.
Proof.
  unfold rotate. rewrite Permutation_app_comm. by rewrite take_drop.
Qed.

(** Any [length nodes] consecutive entries of a list that follows the
    cursor are the fixed set, rotated. *)
Lemma window_rotate (nodes sel : list NodeID) (cursor : Z) (j : nat) :
  0 <= cursor ->
  (forall i : nat, (i < length sel)%nat ->
     sel !! i = nodes !! Z.to_nat ((cursor + 1 + Z.of_nat i) mod Z.of_nat (length nodes))) ->
  (j + length nodes <= length sel)%nat ->
  take (length nodes) (drop j sel) = rotate (Z.to_nat cursor + 1 + j) nodes.
Proof.
  intros Hcur Hsel Hj. apply list_eq. intros i.
  destruct (decide (i < length nodes)%nat) as [Hi|Hi].
  - rewrite lookup_take_lt, lookup_drop by done.
    rewrite Hsel by lia. rewrite lookup_rotate_r by done.
    unfold rotate_nat_add. do 3 f_equal. lia.
  - rewrite lookup_take_ge by lia. symmetry.
    apply lookup_ge_None_2. rewrite length_rotate. lia.
Qed.

Lemma NewClient_cursorInRange (attempts : nat) (delay : Z) (nodes : list NodeID) :
  nodes <> [] -> Z.of_nat (length nodes) < 2 ^ 63 ->
  cursorInRange (NewClient attempts delay nodes).
Proof.
  intros Hne Hlen. split; [|done]. simpl.
  destruct nodes; [done|]. simpl length. lia.
Qed.

(** C2. With a non-empty fixed peer set of size [N], whose cursor points
    into it as it does from [NewClient] on, the [i]-th attempt of a call
    (the first is [i = 0]) is sent to the peer at [(cursor + 1 + i) mod N],
    never to an arbitrary peer; the call leaves the cursor advanced by the
    number of attempts, still inside the set; and any [N] consecutive
    attempts go to the peers of the set, each as often as the set lists
    it, so to [N] different peers when the set has no repetition. *)
Theorem get_round_robin (c : client) (request : Request) (attempts : nat) (delay : Z)
    (parseFn : parseResponseFn) (w : World) (r : outcome Parsed) (c' : client)
    (w' : World) (tr : list event) :
  cursorInRange c ->
  get c request attempts delay parseFn w = (r, c', w', tr) ->
  let nodes := stateSyncNodes c in
  let N := length nodes in
  anyPeerSends tr = O /\
  length (peersSelected tr) = attemptsMade tr /\
  (forall i : nat, (i < attemptsMade tr)%nat ->
     peersSelected tr !! i =
     nodes !! Z.to_nat ((nodeIdx c + 1 + Z.of_nat i) mod Z.of_nat N)) /\
  stateSyncNodes c' = nodes /\
  nodeIdx c' = (nodeIdx c + Z.of_nat (attemptsMade tr)) mod Z.of_nat N /\
  cursorInRange c' /\
  (forall j : nat, (j + N <= attemptsMade tr)%nat ->
     take N (drop j (peersSelected tr)) ≡ₚ nodes /\
     (NoDup nodes -> NoDup (take N (drop j (peersSelected tr))))).
Proof.
  intros Hok Hget. cbv zeta.
  assert (anyPeerSends tr = O /\
          length (peersSelected tr) = attemptsMade tr /\
          stateSyncNodes c' = stateSyncNodes c /\
          nodeIdx c' = (nodeIdx c + Z.of_nat (attemptsMade tr))
                         mod Z.of_nat (length (stateSyncNodes c)) /\
          forall i : nat, (i < attemptsMade tr)%nat ->
            peersSelected tr !! i =
            stateSyncNodes c
              !! Z.to_nat ((nodeIdx c + 1 + Z.of_nat i)
                             mod Z.of_nat (length (stateSyncNodes c))))
    as (Hany & Hlen & Hnodes & Hcur & Hpeers).
  { unfold get in Hget. destruct (RequestToBytes request) as [b|e].
    - destruct (attemptLoop _ _ _ _ _ _ _ _ _ _) as [[[r2 c2] w2] tr2] eqn:Hrec.
      injection Hget as <- <- <- <-.
      apply attemptLoop_rotation in Hrec; [|done]. exact Hrec.
    - injection Hget as <- <- <- <-. unfold attemptsMade. simpl.
      repeat split; try done; [|intros i Hi; lia].
      rewrite Z.add_0_r, Z.mod_small; [done | apply Hok]. }
  destruct Hok as [Hidx Hbound].
  assert (forall j : nat,
            (j + length (stateSyncNodes c) <= attemptsMade tr)%nat ->
            take (length (stateSyncNodes c)) (drop j (peersSelected tr))
            = rotate (Z.to_nat (nodeIdx c) + 1 + j) (stateSyncNodes c)) as Hwindow.
  { intros j Hj. apply window_rotate; try lia.
    intros i Hi. apply Hpeers. lia. }
  repeat split; try done.
  - rewrite Hcur. apply Z.mod_pos_bound. lia.
  - rewrite Hcur, Hnodes. apply Z.mod_pos_bound. lia.
  - by rewrite Hnodes.
  - rewrite Hwindow by done. apply rotate_Permutation.
  - intros Hnodup. rewrite Hwindow by done. by rewrite rotate_Permutation.
Qed.

(** *** Exhaustion, and the pause between attempts *)

Lemma sendAttempt_total (c : client) (b : bytes) (n : Net) :
  stateSyncNodes c = [] \/ cursorInRange c ->
  exists response nodeID c1 n1 sent,
    sendAttempt c b n = Some (response, nodeID, c1, n1, sent) /\
    (stateSyncNodes c1 = [] \/ cursorInRange c1) /\
    (sent = EvRequestAny StateSyncVersion b \/ sent = EvRequest nodeID b).
Proof.
  intros [Hnil|Hok].
  - destruct (sendAttempt_any c b n Hnil) as (response & nodeID & n1 & Hsend).
    exists response, nodeID, c, n1, (EvRequestAny StateSyncVersion b). auto.
  - destruct (sendAttempt_fixed c b n Hok) as (response & nodeID & n1 & Hsend & _ & Hok1).
    eexists response, nodeID, _, n1, _. eauto.
Qed.

Lemma retryDelay_total (attempt : nat) (d : Z) (g : Rng) :
  0 < d \/ attempt = O ->
  exists g1 slept, retryDelay attempt d g = Some (g1, slept).
Proof.
  intros Hd. unfold retryDelay, Int63n. case_decide as Hpos; [|by eexists _, _].
  destruct (Z.leb_spec d 0); [lia|].
  destruct (rand_Int63 g) as [raw g1]. by eexists _, _.
Qed.

(** The loop, when it is ready to run to its end and no attempt succeeds,
    makes every remaining attempt, logs a failure for each, and returns the
    retry-limit error around the last of them. *)
Lemma attemptLoop_exhausts request requestBytes attempts delay (parseFn : parseResponseFn)
    remaining attempt err c w r c' w' tr :
  stateSyncNodes c = [] \/ cursorInRange c ->
  0 < delay \/ remaining = O \/ (attempt = O /\ remaining = 1%nat) ->
  (forall payload m, parseFn request payload <> Panic m) ->
  attemptLoop request requestBytes attempts delay parseFn remaining attempt err c w
    = (r, c', w', tr) ->
  (forall v, r <> Done (Ok v)) ->
  attemptsMade tr = remaining /\
  length (loggedErrors tr) = remaining /\
  r = Done (Err (ErrExceededRetryLimit attempts
                   (match last (loggedErrors tr) with Some e => Some e | None => err end))).
Proof.
  revert attempt err c w r c' w' tr.
  induction remaining as [|remaining IH];
    intros attempt err c w r c' w' tr Hready Hdelay Hparse Hrun Hfail.
  - simpl in Hrun. by injection Hrun as <- <- <- <-.
  - destruct (sendAttempt_total c requestBytes (net w) Hready)
      as (response & nodeID & c1 & n1 & sent & Hsend & Hready1 & Hsent).
    destruct (retryDelay_total attempt delay (rng w)) as (g1 & slept & Hslept); [lia|].
    assert (0 < delay \/ remaining = O \/ (S attempt = O /\ remaining = 1%nat))
      as Hdelay1 by lia.
    simpl in Hrun. rewrite Hslept, Hsend in Hrun.
    assert (forall rest, sentPayloads (slept ++ sent :: rest) = requestBytes :: sentPayloads rest
                         /\ loggedErrors (slept ++ sent :: rest) = loggedErrors rest)
      as Hobs.
    { intros rest.
      apply retryDelay_inv in Hslept as [(_ & -> & _)|(t & _ & _ & _ & ->)];
        destruct Hsent as [-> | ->]; done. }
    destruct response as [payload|e].
    + destruct (parseFn request payload) as [[v|e]|m] eqn:Hp.
      * injection Hrun as <- <- <- <-. by destruct (Hfail v).
      * destruct (attemptLoop _ _ _ _ _ _ _ _ _ _) as [[[r2 c2] w2] tr2] eqn:Hrec.
        injection Hrun as <- <- <- <-.
        destruct (IH _ _ _ _ _ _ _ _ Hready1 Hdelay1 Hparse Hrec Hfail)
          as (Hmade & Hlogged & ->).
        unfold attemptsMade in *.
        destruct (Hobs (EvParse payload :: EvLogInvalidResponse nodeID attempt e :: tr2))
          as [-> ->].
        simpl. rewrite last_cons, Hmade, Hlogged.
        repeat split; try done. by destruct (last (loggedErrors tr2)).
      * by destruct (Hparse payload m).
    + destruct (attemptLoop _ _ _ _ _ _ _ _ _ _) as [[[r2 c2] w2] tr2] eqn:Hrec.
      injection Hrun as <- <- <- <-.
      destruct (IH _ _ _ _ _ _ _ _ Hready1 Hdelay1 Hparse Hrec Hfail)
        as (Hmade & Hlogged & ->).
      unfold attemptsMade in *.
      destruct (Hobs (EvLogRequestFailed nodeID attempt e :: tr2)) as [-> ->].
      simpl. rewrite last_cons, Hmade, Hlogged.
      repeat split; try done. by destruct (last (loggedErrors tr2)).
Qed.

(** X1. With a positive retry delay (or at most one attempt), a call whose
    attempts all fail makes exactly [attempts] attempts and then returns
    the retry-limit error around the error of the last attempt. *)
Theorem get_exhausts (c : client) (request : Request) (attempts : nat) (delay : Z)
    (parseFn : parseResponseFn) (w : World) (r : outcome Parsed) (c' : client)
    (w' : World) (tr : list event) (requestBytes : bytes) :
  RequestToBytes request = Ok requestBytes ->
  stateSyncNodes c = [] \/ cursorInRange c ->
  0 < delay \/ (attempts <= 1)%nat ->
  (forall payload m, parseFn request payload <> Panic m) ->
  get c request attempts delay parseFn w = (r, c', w', tr) ->
  (forall v, r <> Done (Ok v)) ->
  attemptsMade tr = attempts /\
  length (loggedErrors tr) = attempts /\
  r = Done (Err (ErrExceededRetryLimit attempts (last (loggedErrors tr)))).
Proof.
  intros Henc Hready Hdelay Hparse Hget Hfail. unfold get in Hget. rewrite Henc in Hget.
  destruct (attemptLoop _ _ _ _ _ _ _ _ _ _) as [[[r2 c2] w2] tr2] eqn:Hrec.
  injection Hget as <- <- <- <-.
  apply attemptLoop_exhausts in Hrec as (Hmade & Hlogged & ->); try done; [|lia].
  unfold attemptsMade in *. simpl. repeat split; try done.
  by destruct (last (loggedErrors tr2)).
Qed.

Lemma retryDelay_nonpositive (attempt : nat) (delay : Z) (g : Rng) :
  (0 < attempt)%nat -> delay <= 0 -> retryDelay attempt delay g = None.
Proof.
  intros Hattempt Hdelay. unfold retryDelay, Int63n.
  rewrite decide_True by done.
  destruct (Z.leb_spec delay 0); [done | lia].
Qed.

(** For a positive retry delay every pause lies in [[0, delay)], none
    precedes the first attempt, and there is one pause per retry. *)
Lemma attemptLoop_sleeps request requestBytes attempts delay (parseFn : parseResponseFn)
    remaining attempt err c w r c' w' tr :
  stateSyncNodes c = [] \/ cursorInRange c ->
  attemptLoop request requestBytes attempts delay parseFn remaining attempt err c w
    = (r, c', w', tr) ->
  Forall (fun d => 0 <= d < delay) (sleeps tr) /\
  (attempt = O -> sleepsBeforeFirstSend tr = []) /\
  length (sleeps tr) = (if decide (attempt = O) then pred (attemptsMade tr)
                        else attemptsMade tr).
Proof.
  revert attempt err c w r c' w' tr.
  induction remaining as [|remaining IH];
    intros attempt err c w r c' w' tr Hready Hrun.
  - simpl in Hrun. injection Hrun as <- <- <- <-. unfold attemptsMade. simpl.
    by case_decide.
  - destruct (sendAttempt_total c requestBytes (net w) Hready)
      as (response & nodeID & c1 & n1 & sent & Hsend & Hready1 & Hsent).
    simpl in Hrun. rewrite Hsend in Hrun.
    destruct (retryDelay _ _ _) as [[g1 slept]|] eqn:Hslept.
    + assert (forall rest,
                Forall (fun d => 0 <= d < delay) (sleeps rest) ->
                length (sleeps rest) = attemptsMade rest ->
                Forall (fun d => 0 <= d < delay) (sleeps (slept ++ sent :: rest)) /\
                (attempt = O -> sleepsBeforeFirstSend (slept ++ sent :: rest) = []) /\
                length (sleeps (slept ++ sent :: rest)) =
                  (if decide (attempt = O)
                   then pred (attemptsMade (slept ++ sent :: rest))
                   else attemptsMade (slept ++ sent :: rest))) as Hobs.
      { intros rest Hall Hlen. unfold attemptsMade in *.
        apply retryDelay_inv in Hslept as [(-> & -> & _)|(t & Hpos & _ & Ht & ->)];
          destruct Hsent as [-> | ->]; simpl.
        - by rewrite Hlen.
        - by rewrite Hlen.
        - rewrite decide_False by lia. rewrite Hlen.
          repeat split; [by constructor | lia].
        - rewrite decide_False by lia. rewrite Hlen.
          repeat split; [by constructor | lia]. }
      destruct response as [payload|e].
      * destruct (parseFn request payload) as [[v|e]|m] eqn:Hp.
        -- injection Hrun as <- <- <- <-. by apply Hobs.
        -- destruct (attemptLoop _ _ _ _ _ _ _ _ _ _) as [[[r2 c2] w2] tr2] eqn:Hrec.
           injection Hrun as <- <- <- <-.
           destruct (IH _ _ _ _ _ _ _ _ Hready1 Hrec) as (Hall & _ & Hlen).
           rewrite decide_False in Hlen by lia.
           apply (Hobs (EvParse payload :: EvLogInvalidResponse nodeID attempt e :: tr2));
             done.
        -- injection Hrun as <- <- <- <-. by apply Hobs.
      * destruct (attemptLoop _ _ _ _ _ _ _ _ _ _) as [[[r2 c2] w2] tr2] eqn:Hrec.
        injection Hrun as <- <- <- <-.
        destruct (IH _ _ _ _ _ _ _ _ Hready1 Hrec) as (Hall & _ & Hlen).
        rewrite decide_False in Hlen by lia.
        apply (Hobs (EvLogRequestFailed nodeID attempt e :: tr2)); done.
    + injection Hrun as <- <- <- <-. unfold attemptsMade. simpl.
      repeat split; try done. case_decide as Ha; [|done].
      subst attempt. unfold retryDelay in Hslept. simpl in Hslept. discriminate.
Qed.

(** X2. The pauses of a call all lie in [[0, delay)], none precedes the first
    attempt, and each later attempt is preceded by one. *)
Theorem get_sleeps (c : client) (request : Request) (attempts : nat) (delay : Z)
    (parseFn : parseResponseFn) (w : World) (r : outcome Parsed) (c' : client)
    (w' : World) (tr : list event) :
  stateSyncNodes c = [] \/ cursorInRange c ->
  get c request attempts delay parseFn w = (r, c', w', tr) ->
  Forall (fun d => 0 <= d < delay) (sleeps tr) /\
  sleepsBeforeFirstSend tr = [] /\
  length (sleeps tr) = pred (attemptsMade tr).
Proof.
  intros Hready Hget. unfold get in Hget.
  destruct (RequestToBytes request) as [b|e].
  - destruct (attemptLoop _ _ _ _ _ _ _ _ _ _) as [[[r2 c2] w2] tr2] eqn:Hrec.
    injection Hget as <- <- <- <-.
    apply attemptLoop_sleeps in Hrec as (Hall & Hfirst & Hlen); [|done].
    rewrite decide_True in Hlen by done.
    unfold attemptsMade in *. simpl. auto.
  - injection Hget as <- <- <- <-. unfold attemptsMade. simpl. auto.
Qed.

(** C10 (the code at the failing input). With a retry delay of zero or
    less the pause before a retry is not defined: [rand.Int63n] panics, and
    the retry ends the call there, with nothing slept and nothing sent. *)
Theorem retry_panics_without_delay (request : Request) (requestBytes : bytes)
    (attempts : nat) (delay : Z) (parseFn : parseResponseFn)
    (remaining attempt : nat) (err : option error) (c : client) (w : World) :
  (0 < attempt)%nat -> delay <= 0 ->
  Int63n delay (rng w) = None /\
  attemptLoop request requestBytes attempts delay parseFn (S remaining) attempt err c w
    = (Panic "invalid argument to Int63n", c, w, []).
Proof.
  intros Hattempt Hdelay. split.
  - unfold Int63n. destruct (Z.leb_spec delay 0); [done | lia].
  - simpl. by rewrite retryDelay_nonpositive.
Qed.

(** C1 (the code at the failing input). With a retry delay of zero or
    less and two or more attempts allowed, a call whose first attempt fails
    does not go on to the retry limit: it has made one attempt when
    [rand.Int63n] panics. *)
Theorem get_panics_without_delay (c : client) (request : Request) (attempts : nat)
    (delay : Z) (parseFn : parseResponseFn) (w : World) (r : outcome Parsed)
    (c' : client) (w' : World) (tr : list event) (requestBytes : bytes) :
  RequestToBytes request = Ok requestBytes ->
  stateSyncNodes c = [] \/ cursorInRange c ->
  delay <= 0 ->
  (2 <= attempts)%nat ->
  (forall payload m, parseFn request payload <> Panic m) ->
  get c request attempts delay parseFn w = (r, c', w', tr) ->
  (forall v, r <> Done (Ok v)) ->
  r = Panic "invalid argument to Int63n" /\
  attemptsMade tr = 1%nat /\
  length (loggedErrors tr) = 1%nat.
Proof.
  intros Henc Hready Hdelay Hattempts Hparse Hget Hfail.
  unfold get in Hget. rewrite Henc in Hget.
  destruct attempts as [|[|n]]; try lia.
  destruct (sendAttempt_total c requestBytes (net w) Hready)
    as (response & nodeID & c1 & n1 & sent & Hsend & _ & Hsent).
  cbn [attemptLoop] in Hget.
  replace (retryDelay 0 delay (rng w)) with (Some (rng w, @nil event)) in Hget
    by reflexivity.
  rewrite Hsend in Hget.
  rewrite !(retryDelay_nonpositive 1 delay) in Hget by lia.
  assert (sentPayloads [sent] = [requestBytes] /\ loggedErrors [sent] = []) as [Hs Hl]
    by (destruct Hsent as [-> | ->]; done).
  destruct response as [payload|e].
  - destruct (parseFn request payload) as [[v|e]|m] eqn:Hp.
    + injection Hget as <- <- <- <-. by destruct (Hfail v).
    + injection Hget as <- <- <- <-.
      unfold attemptsMade. destruct Hsent as [-> | ->]; done.
    + by destruct (Hparse payload m).
  - injection Hget as <- <- <- <-.
    unfold attemptsMade. destruct Hsent as [-> | ->]; done.
Qed.

End Retry.

(** ** Whole calls: outcomes, bounds and the entry points *)

Section Calls.
Context `{E : Env}.

(** One iteration of the loop, read back from its result. *)
Lemma attemptLoop_step request requestBytes attempts delay (parseFn : parseResponseFn)
    remaining attempt err c w r c' w' tr :
  attemptLoop request requestBytes attempts delay parseFn (S remaining) attempt err c w
    = (r, c', w', tr) ->
  (retryDelay attempt delay (rng w) = None /\
   r = Panic "invalid argument to Int63n" /\ c' = c /\ w' = w /\ tr = []) \/
  exists g1 slept,
    retryDelay attempt delay (rng w) = Some (g1, slept) /\
    ((sendAttempt c requestBytes (net w) = None /\
      r = Panic "index out of range" /\ c' = c /\ tr = slept) \/
     exists response nodeID c1 n1 sent,
       sendAttempt c requestBytes (net w) = Some (response, nodeID, c1, n1, sent) /\
       match response with
       | Err e =>
           exists tr2,
             attemptLoop request requestBytes attempts delay parseFn remaining
               (S attempt) (Some e) c1 (mkWorld n1 g1) = (r, c', w', tr2) /\
             tr = slept ++ sent :: EvLogRequestFailed nodeID attempt e :: tr2
       | Ok payload =>
           match parseFn request payload with
           | Panic m =>
               r = Panic m /\ c' = c1 /\ tr = slept ++ [sent; EvParse payload]
           | Done (Ok v) =>
               r = Done (Ok v) /\ c' = c1 /\ w' = mkWorld n1 g1 /\
               tr = slept ++ [sent; EvParse payload]
           | Done (Err e) =>
               exists tr2,
                 attemptLoop request requestBytes attempts delay parseFn remaining
                   (S attempt) (Some e) c1 (mkWorld n1 g1) = (r, c', w', tr2) /\
                 tr = slept ++ sent :: EvParse payload
                            :: EvLogInvalidResponse nodeID attempt e :: tr2
           end
       end).
Proof.
  intros Hrun. simpl in Hrun.
  destruct (retryDelay attempt delay (rng w)) as [[g1 slept]|].
  - right. exists g1, slept. split; [done|].
    destruct (sendAttempt c requestBytes (net w))
      as [[[[[response nodeID] c1] n1] sent]|].
    + right. exists response, nodeID, c1, n1, sent. split; [done|].
      destruct response as [payload|e].
      * destruct (parseFn request payload) as [[v|e]|m].
        -- by injection Hrun as <- <- <- <-.
        -- destruct (attemptLoop _ _ _ _ _ _ _ _ _ _) as [[[r2 c2] w2] tr2].
           injection Hrun as <- <- <- <-. by exists tr2.
        -- by injection Hrun as <- <- <- <-.
      * destruct (attemptLoop _ _ _ _ _ _ _ _ _ _) as [[[r2 c2] w2] tr2].
        injection Hrun as <- <- <- <-. by exists tr2.
    + left. by injection Hrun as <- <- <- <-.
  - left. by injection Hrun as <- <- <- <-.
Qed.

(** The events of one iteration before its logs: at most one sleep, then
    one send of the request bytes. *)
Lemma iteration_events attempt delay (g g1 : Rng) slept c requestBytes (n n1 : Net)
    response nodeID c1 sent :
  retryDelay attempt delay g = Some (g1, slept) ->
  sendAttempt c requestBytes n = Some (response, nodeID, c1, n1, sent) ->
  (slept = [] \/ exists t, slept = [EvSleep t]) /\
  (sent = EvRequestAny StateSyncVersion requestBytes /\ stateSyncNodes c = [] /\ c1 = c \/
   sent = EvRequest nodeID requestBytes /\ stateSyncNodes c <> [] /\
   exists i, c1 = setNodeIdx c i).
Proof.
  intros Hd Hs. split.
  - apply retryDelay_inv in Hd as [(_ & -> & _)|(t & _ & _ & _ & ->)]; eauto.
  - apply sendAttempt_inv in Hs as [(Hnil & -> & ->)|(Hne & -> & -> & _)]; eauto 6.
Qed.

(** Takes the loop's result apart into the cases of [attemptLoop_step], with
    the events of the iteration made explicit. *)
Ltac loop_inv Hrun :=
  apply attemptLoop_step in Hrun
    as [(Hdelay & -> & -> & -> & ->)
       |(g1 & slept & Hdelay &
         [(Hsend & -> & -> & ->)
         |(response & nodeID & c1 & n1 & sent & Hsend & Hcase)])];
  [ | |
    destruct (iteration_events _ _ _ _ _ _ _ _ _ _ _ _ _ Hdelay Hsend)
      as [[-> | [t ->]] [(-> & Hnodes & ->) | (-> & Hnodes & [idx ->])]];
    (destruct response as [payload|e];
     [ destruct (_ _ payload) as [[v|e]|m] eqn:Hparse;
       [ destruct Hcase as (-> & -> & -> & ->)
       | destruct Hcase as (tr2 & Hrec & ->)
       | destruct Hcase as (-> & -> & ->) ]
     | destruct Hcase as (tr2 & Hrec & ->) ]) ].

(** However a run of the loop ends, it has made no more attempts than
    remained, and its logged failures carry the attempt numbers in order. *)
Lemma attemptLoop_bound request requestBytes attempts delay (parseFn : parseResponseFn)
    remaining attempt err c w r c' w' tr :
  attemptLoop request requestBytes attempts delay parseFn remaining attempt err c w
    = (r, c', w', tr) ->
  (attemptsMade tr <= remaining)%nat /\
  (length (loggedErrors tr) <= attemptsMade tr)%nat /\
  loggedAttempts tr = seq attempt (length (loggedErrors tr)) /\
  (length (parsedPayloads tr) <= attemptsMade tr)%nat.
Proof.
  revert attempt err c w r c' w' tr.
  induction remaining as [|remaining IH]; intros attempt err c w r c' w' tr Hrun.
  - simpl in Hrun. injection Hrun as <- <- <- <-. unfold attemptsMade. simpl.
    repeat split; try done; lia.
  - loop_inv Hrun;
      try (apply IH in Hrec as (Hb1 & Hb2 & Hb3 & Hb4));
      unfold attemptsMade in *; simpl; rewrite ?Hb3;
      try (apply retryDelay_inv in Hdelay as [(_ & -> & _)|(t & _ & _ & _ & ->)]);
      simpl; repeat split; try done; lia.
Qed.

(** A success is the validator's, on the payload of the last send; every
    attempt before it failed and was logged. *)
Lemma attemptLoop_success request requestBytes attempts delay (parseFn : parseResponseFn)
    remaining attempt err c w r v0 c' w' tr :
  attemptLoop request requestBytes attempts delay parseFn remaining attempt err c w
    = (r, c', w', tr) ->
  r = Done (Ok v0) ->
  exists pre sent payload,
    tr = pre ++ [sent; EvParse payload] /\
    parseFn request payload = Done (Ok v0) /\
    sentPayloads [sent] = [requestBytes] /\
    last (parsedPayloads tr) = Some payload /\
    attemptsMade tr = S (length (loggedErrors tr)).
Proof.
  revert attempt err c w r c' w' tr.
  induction remaining as [|remaining IH]; intros attempt err c w r c' w' tr Hrun Hr.
  - simpl in Hrun. injection Hrun as <- <- <- <-. discriminate.
  - loop_inv Hrun; try discriminate;
      try (injection Hr as ->);
      try (destruct (IH _ _ _ _ _ _ _ _ Hrec Hr)
             as (pre & sent & payload' & -> & Hp & Hs & Hlast & Hmade));
      unfold attemptsMade in *.
    all: try (eexists [], _, payload; by repeat split).
    all: try (eexists [_], _, payload; by repeat split).
    all: try (eexists (_ :: _ :: _ :: pre), sent, payload';
              simpl; rewrite ?Hmade, ?last_cons, ?Hlast; by repeat split).
    all: try (eexists (_ :: _ :: _ :: _ :: pre), sent, payload';
              simpl; rewrite ?Hmade, ?last_cons, ?Hlast; by repeat split).
    all: try (eexists (_ :: _ :: pre), sent, payload';
              simpl; rewrite ?Hmade, ?last_cons, ?Hlast; by repeat split).
Qed.

(** An error the loop returns is the retry-limit error, after every
    remaining attempt was made and failed. *)
Lemma attemptLoop_error request requestBytes attempts delay (parseFn : parseResponseFn)
    remaining attempt err c w r e0 c' w' tr :
  attemptLoop request requestBytes attempts delay parseFn remaining attempt err c w
    = (r, c', w', tr) ->
  r = Done (Err e0) ->
  attemptsMade tr = remaining /\
  length (loggedErrors tr) = remaining /\
  e0 = ErrExceededRetryLimit attempts
         (match last (loggedErrors tr) with Some x => Some x | None => err end).
Proof.
  revert attempt err c w r c' w' tr.
  induction remaining as [|remaining IH]; intros attempt err c w r c' w' tr Hrun Hr.
  - simpl in Hrun. injection Hrun as <- <- <- <-. by injection Hr as <-.
  - loop_inv Hrun; try discriminate;
      destruct (IH _ _ _ _ _ _ _ _ Hrec Hr) as (Hmade & Hlogged & ->);
      unfold attemptsMade in *; simpl; rewrite ?last_cons, Hmade, Hlogged;
      repeat split; try done; by destruct (last (loggedErrors tr2)).
Qed.

(** The loop changes nothing of the client but the cursor, and with no
    fixed peers not even that: it then sends to any peer only. *)
Lemma attemptLoop_config request requestBytes attempts delay (parseFn : parseResponseFn)
    remaining attempt err c w r c' w' tr :
  attemptLoop request requestBytes attempts delay parseFn remaining attempt err c w
    = (r, c', w', tr) ->
  (stateSyncNodes c' = stateSyncNodes c /\
   maxAttempts c' = maxAttempts c /\
   maxRetryDelay c' = maxRetryDelay c) /\
  (stateSyncNodes c = [] ->
   c' = c /\ peersSelected tr = [] /\ anyPeerSends tr = attemptsMade tr).
Proof.
  revert attempt err c w r c' w' tr.
  induction remaining as [|remaining IH]; intros attempt err c w r c' w' tr Hrun.
  - simpl in Hrun. by injection Hrun as <- <- <- <-.
  - loop_inv Hrun;
      try (apply IH in Hrec as ((Hn & Ha & Hd) & Hany); simpl in Hn, Ha, Hd, Hany);
      try (apply retryDelay_inv in Hdelay as [(_ & -> & _)|(t & _ & _ & _ & ->)]);
      unfold attemptsMade in *; simpl;
      (split; [by repeat split|]); intros Hnil; try done;
      try (destruct (Hany Hnil) as (-> & -> & ->)); done.
Qed.

(** *** The retry engine, call by call *)

Lemma get_rotation (c : client) (request : Request) (attempts : nat) (delay : Z)
    (parseFn : parseResponseFn) (w : World) r c' w' tr :
  cursorInRange c ->
  get c request attempts delay parseFn w = (r, c', w', tr) ->
  length (peersSelected tr) = attemptsMade tr /\
  stateSyncNodes c' = stateSyncNodes c /\
  nodeIdx c' = (nodeIdx c + Z.of_nat (attemptsMade tr))
                 mod Z.of_nat (length (stateSyncNodes c)) /\
  cursorInRange c' /\
  forall i : nat, (i < attemptsMade tr)%nat ->
    peersSelected tr !! i =
    stateSyncNodes c
      !! Z.to_nat ((nodeIdx c + 1 + Z.of_nat i) mod Z.of_nat (length (stateSyncNodes c))).
Proof.
  intros Hok Hget.
  assert (length (peersSelected tr) = attemptsMade tr /\
          stateSyncNodes c' = stateSyncNodes c /\
          nodeIdx c' = (nodeIdx c + Z.of_nat (attemptsMade tr))
                         mod Z.of_nat (length (stateSyncNodes c)) /\
          forall i : nat, (i < attemptsMade tr)%nat ->
            peersSelected tr !! i =
            stateSyncNodes c
              !! Z.to_nat ((nodeIdx c + 1 + Z.of_nat i)
                             mod Z.of_nat (length (stateSyncNodes c))))
    as (Hlen & Hnodes & Hcur & Hpeers).
  { unfold get in Hget. destruct (RequestToBytes request) as [b|e].
    - destruct (attemptLoop _ _ _ _ _ _ _ _ _ _) as [[[r2 c2] w2] tr2] eqn:Hrec.
      injection Hget as <- <- <- <-.
      apply attemptLoop_rotation in Hrec as (_ & ? & ? & ? & ?); done.
    - injection Hget as <- <- <- <-. unfold attemptsMade. simpl.
      repeat split; try done; [|intros i Hi; lia].
      rewrite Z.add_0_r, Z.mod_small; [done | apply Hok]. }
  destruct Hok as [Hidx Hbound].
  repeat split; try done.
  - rewrite Hcur. apply Z.mod_pos_bound. lia.
  - rewrite Hcur, Hnodes. apply Z.mod_pos_bound. lia.
  - by rewrite Hnodes.
Qed.

(** X3. A call that succeeds returns what the validator made of the last
    payload it was handed, right after the send that fetched it: nothing
    follows in the trace, every earlier attempt was a logged failure, and
    between one and [attempts] attempts were made. *)
Theorem get_success_stops (c : client) (request : Request) (attempts : nat) (delay : Z)
    (parseFn : parseResponseFn) (w : World) (v : Parsed) (c' : client)
    (w' : World) (tr : list event) :
  get c request attempts delay parseFn w = (Done (Ok v), c', w', tr) ->
  exists requestBytes pre sent payload,
    RequestToBytes request = Ok requestBytes /\
    tr = EvMarshal request :: pre ++ [sent; EvParse payload] /\
    sentPayloads [sent] = [requestBytes] /\
    parseFn request payload = Done (Ok v) /\
    last (parsedPayloads tr) = Some payload /\
    attemptsMade tr = S (length (loggedErrors tr)) /\
    (attemptsMade tr <= attempts)%nat.
Proof.
  unfold get. destruct (RequestToBytes request) as [b|e]; [|discriminate].
  destruct (attemptLoop _ _ _ _ _ _ _ _ _ _) as [[[r2 c2] w2] tr2] eqn:Hrec.
  intros [= -> <- <- <-].
  destruct (attemptLoop_bound _ _ _ _ _ _ _ _ _ _ _ _ _ _ Hrec) as (Hbound & _).
  destruct (attemptLoop_success _ _ _ _ _ _ _ _ _ _ _ _ _ _ _ Hrec eq_refl)
    as (pre & sent & payload & -> & Hp & Hs & Hlast & Hmade).
  exists b, pre, sent, payload. unfold attemptsMade in *. by repeat split.
Qed.

(** X4. Whatever the outcome of a call, panics included, it has made at
    most [attempts] attempts, has handed the validator at most one payload
    per attempt, and has logged its failures under the attempt numbers
    0, 1, 2, ... in order. *)
Theorem get_attempt_bound (c : client) (request : Request) (attempts : nat) (delay : Z)
    (parseFn : parseResponseFn) (w : World) (r : outcome Parsed) (c' : client)
    (w' : World) (tr : list event) :
  get c request attempts delay parseFn w = (r, c', w', tr) ->
  (attemptsMade tr <= attempts)%nat /\
  (length (loggedErrors tr) <= attemptsMade tr)%nat /\
  (length (parsedPayloads tr) <= attemptsMade tr)%nat /\
  loggedAttempts tr = seq 0 (length (loggedErrors tr)).
Proof.
  unfold get. destruct (RequestToBytes request) as [b|e].
  - destruct (attemptLoop _ _ _ _ _ _ _ _ _ _) as [[[r2 c2] w2] tr2] eqn:Hrec.
    intros [= <- <- <- <-].
    destruct (attemptLoop_bound _ _ _ _ _ _ _ _ _ _ _ _ _ _ Hrec) as (? & ? & ? & ?).
    unfold attemptsMade in *. by repeat split.
  - intros [= <- <- <- <-]. unfold attemptsMade. simpl. repeat split; lia.
Qed.

(** X5. The only errors a call returns are the encoding error, with no
    attempt made, and the retry-limit error, after exactly [attempts] failed
    attempts and around the error of the last one: an error of the
    transport or of the validator never reaches the caller on its own. *)
Theorem get_error_kinds (c : client) (request : Request) (attempts : nat) (delay : Z)
    (parseFn : parseResponseFn) (w : World) (e : error) (c' : client)
    (w' : World) (tr : list event) :
  get c request attempts delay parseFn w = (Done (Err e), c', w', tr) ->
  (RequestToBytes request = Err e /\ attemptsMade tr = O) \/
  (exists requestBytes, RequestToBytes request = Ok requestBytes) /\
  e = ErrExceededRetryLimit attempts (last (loggedErrors tr)) /\
  attemptsMade tr = attempts /\
  length (loggedErrors tr) = attempts.
Proof.
  unfold get. destruct (RequestToBytes request) as [b|e'].
  - destruct (attemptLoop _ _ _ _ _ _ _ _ _ _) as [[[r2 c2] w2] tr2] eqn:Hrec.
    intros [= -> <- <- <-]. right.
    destruct (attemptLoop_error _ _ _ _ _ _ _ _ _ _ _ _ _ _ _ Hrec eq_refl)
      as (Hmade & Hlogged & ->).
    unfold attemptsMade in *. simpl. repeat split; try done; [by exists b|].
    by destruct (last (loggedErrors tr2)).
  - intros [= <- <- <- <-]. by left.
Qed.

(** X6. A call leaves the client's configuration alone: the attempt limit,
    the retry delay and the peer list are the same afterwards, and with no
    fixed peers the whole client is, every send going to any peer. *)
Theorem get_keeps_config (c : client) (request : Request) (attempts : nat) (delay : Z)
    (parseFn : parseResponseFn) (w : World) (r : outcome Parsed) (c' : client)
    (w' : World) (tr : list event) :
  get c request attempts delay parseFn w = (r, c', w', tr) ->
  stateSyncNodes c' = stateSyncNodes c /\
  maxAttempts c' = maxAttempts c /\
  maxRetryDelay c' = maxRetryDelay c /\
  (stateSyncNodes c = [] ->
   c' = c /\ peersSelected tr = [] /\ anyPeerSends tr = attemptsMade tr).
Proof.
  unfold get. destruct (RequestToBytes request) as [b|e].
  - destruct (attemptLoop _ _ _ _ _ _ _ _ _ _) as [[[r2 c2] w2] tr2] eqn:Hrec.
    intros [= <- <- <- <-].
    destruct (attemptLoop_config _ _ _ _ _ _ _ _ _ _ _ _ _ _ Hrec)
      as ((? & ? & ?) & Hany).
    unfold attemptsMade in *. simpl. repeat split; try done.
    all: match goal with
         | Hnil : stateSyncNodes _ = [] |- _ => by destruct (Hany Hnil) as (? & ? & ?)
         end.
  - intros [= <- <- <- <-]. by repeat split.
Qed.

(** X7. The rotation carries over from one call to the next: over two
    calls in a row on a fixed peer set of size [N], the [i]-th send overall
    goes to the peer at [(cursor + 1 + i) mod N] of the cursor before the
    first call. *)
Theorem get_twice_rotation (c : client)
    (request1 request2 : Request) (attempts1 attempts2 : nat) (delay1 delay2 : Z)
    (parseFn1 parseFn2 : parseResponseFn) (w : World)
    r1 c1 w1 tr1 r2 c2 w2 tr2 :
  cursorInRange c ->
  get c request1 attempts1 delay1 parseFn1 w = (r1, c1, w1, tr1) ->
  get c1 request2 attempts2 delay2 parseFn2 w1 = (r2, c2, w2, tr2) ->
  let N := Z.of_nat (length (stateSyncNodes c)) in
  let sel := peersSelected tr1 ++ peersSelected tr2 in
  length sel = (attemptsMade tr1 + attemptsMade tr2)%nat /\
  nodeIdx c2 = (nodeIdx c + Z.of_nat (attemptsMade tr1 + attemptsMade tr2)) mod N /\
  forall i : nat, (i < length sel)%nat ->
    sel !! i = stateSyncNodes c !! Z.to_nat ((nodeIdx c + 1 + Z.of_nat i) mod N).
Proof.
  intros Hok Hget1 Hget2. cbv zeta.
  destruct (get_rotation _ _ _ _ _ _ _ _ _ _ Hok Hget1)
    as (Hlen1 & Hnodes1 & Hcur1 & Hok1 & Hpeers1).
  destruct (get_rotation _ _ _ _ _ _ _ _ _ _ Hok1 Hget2)
    as (Hlen2 & Hnodes2 & Hcur2 & Hok2 & Hpeers2).
  rewrite Hnodes1 in Hcur2, Hpeers2.
  remember (Z.of_nat (length (stateSyncNodes c))) as N eqn:HN.
  rewrite length_app, Hlen1, Hlen2. repeat split; try done.
  - rewrite Hcur2, Hcur1, Zplus_mod_idemp_l. f_equal. lia.
  - intros i Hi. destruct (decide (i < attemptsMade tr1)%nat) as [Hlt|Hge].
    + rewrite lookup_app_l by lia. by apply Hpeers1.
    + rewrite lookup_app_r by lia. rewrite Hlen1.
      rewrite Hpeers2 by lia. rewrite Hcur1.
      do 2 f_equal. rewrite <- !Z.add_assoc, Zplus_mod_idemp_l. f_equal. lia.
Qed.

(** *** The entry points *)

Lemma parseBlocks_accepts (req : BlockRequest) (data : bytes) (v : Parsed) :
  parseBlocks (ReqBlock req) data = Done (Ok v) ->
  exists response blocks,
    Unmarshal_BlockResponse data = Ok response /\
    v = PBlocks blocks /\
    Blocks response <> [] /\
    Z.of_nat (length (Blocks response)) <= Parents req /\
    decodesTo (Blocks response) blocks /\
    linkedFrom (BlockHash req) blocks.
Proof.
  unfold parseBlocks.
  destruct (Unmarshal_BlockResponse data) as [response|]; [|discriminate].
  case_decide as Hlen; [discriminate|].
  destruct (Z.ltb_spec (Parents req) (Z.of_nat (length (Blocks response)))) as [|Hle];
    [discriminate|].
  destruct (decodeBlocks _ _) as [blocks|] eqn:Hrec; [|discriminate].
  intros [= <-]. apply decodeBlocks_spec in Hrec as [Hd Hl].
  exists response, blocks. repeat split; try done.
  intros Hnil. by rewrite Hnil in Hlen.
Qed.

Lemma parseLeafsResponse_verified (req : LeafsRequest) (data : bytes)
    (resp : LeafsResponse) (v : Parsed) :
  Unmarshal_LeafsResponse data = Ok resp ->
  parseLeafsResponse (ReqLeafs req) data = Done (Ok v) ->
  exists more,
    v = PLeafs (setMore resp more) /\
    VerifyRangeProof (Root req) (effectiveFirstKey req) (effectiveLastKey req resp)
      (Keys resp) (Vals resp) (proofStore resp) = Ok more.
Proof.
  intros Hdec. unfold parseLeafsResponse. rewrite Hdec.
  destruct (_ || _); [discriminate|]. case_decide; [discriminate|].
  unfold proofStore. case_decide as Hpos.
  - case_decide as Hlen; [discriminate|].
    rewrite putProofs_zip by (by rewrite drop_0). rewrite drop_0, verifyLeafs_spec.
    destruct (ProofKeys resp); [simpl in Hpos; lia|].
    destruct (VerifyRangeProof _ _ _ _ _ _) as [more|]; [|discriminate].
    intros [= <-]. by exists more.
  - rewrite verifyLeafs_spec.
    destruct (ProofKeys resp); [|simpl in Hpos; lia].
    destruct (VerifyRangeProof _ _ _ _ _ _) as [more|]; [|discriminate].
    intros [= <-]. by exists more.
Qed.

Lemma linkedFrom_lookup (h : Hash) (blocks : list Block) :
  linkedFrom h blocks ->
  (forall b, head blocks = Some b -> Block_Hash b = h) /\
  (forall (i : nat) (b b' : Block),
     blocks !! i = Some b -> blocks !! S i = Some b' ->
     Block_Hash b' = Block_ParentHash b).
Proof.
  revert h. induction blocks as [|b0 blocks IH]; intros h Hl; [done|].
  destruct Hl as [Hh Hrest]. apply IH in Hrest as [Hhead Hlinks]. split.
  - by intros b [= <-].
  - intros [|i] b b' Hb Hb'; simpl in *.
    + injection Hb as <-. apply Hhead. by destruct blocks.
    + by eapply Hlinks.
Qed.

(** A success of [get] is the validator's on the last payload parsed. *)
Lemma get_success_last (c : client) (request : Request) (attempts : nat) (delay : Z)
    (parseFn : parseResponseFn) (w : World) v c' w' tr :
  get c request attempts delay parseFn w = (Done (Ok v), c', w', tr) ->
  exists payload,
    last (parsedPayloads tr) = Some payload /\ parseFn request payload = Done (Ok v).
Proof.
  unfold get. destruct (RequestToBytes request) as [b|e]; [|discriminate].
  destruct (attemptLoop _ _ _ _ _ _ _ _ _ _) as [[[r2 c2] w2] tr2] eqn:Hrec.
  intros [= -> <- <- <-].
  destruct (attemptLoop_success _ _ _ _ _ _ _ _ _ _ _ _ _ _ _ Hrec eq_refl)
    as (pre & sent & payload & -> & Hp & Hs & Hlast & Hmade).
  by exists payload.
Qed.

Lemma GetBlocks_chain_bounds (c : client) (hash : Hash) (height parents : Z) (w : World)
    (blocks : list Block) (c' : client) (w' : World) (tr : list event) :
  GetBlocks c hash height parents w = (Done (Ok blocks), c', w', tr) ->
  (0 < length blocks)%nat /\ Z.of_nat (length blocks) <= parents.
Proof.
  unfold GetBlocks.
  destruct (get _ _ _ _ _ _) as [[[r2 c2] w2] tr2] eqn:Hget.
  destruct r2 as [[[ |blocks0| ]|e]|m]; try discriminate.
  intros [= -> <- <- <-].
  destruct (get_success_last _ _ _ _ _ _ _ _ _ _ Hget) as (payload & Hlast & Hparse).
  apply parseBlocks_accepts in Hparse
    as (response & blocks1 & Hdec & [= <-] & Hne & Hle & Hd & Hl).
  simpl in Hle.
  pose proof (Forall2_length _ _ _ Hd) as Hlen.
  split; [|lia]. destruct (Blocks response); [done | simpl in Hlen; lia].
Qed.

(** X8. The blocks [GetBlocks] returns are the entries of the last
    response it received, decoded in order; there is at least one and at
    most [parents] of them; the first hashes to the requested hash and
    every other hashes to the parent hash of the one before it. *)
Theorem GetBlocks_chain (c : client) (hash : Hash) (height parents : Z) (w : World)
    (blocks : list Block) (c' : client) (w' : World) (tr : list event) :
  GetBlocks c hash height parents w = (Done (Ok blocks), c', w', tr) ->
  (exists payload response,
     last (parsedPayloads tr) = Some payload /\
     Unmarshal_BlockResponse payload = Ok response /\
     decodesTo (Blocks response) blocks) /\
  (0 < length blocks)%nat /\
  Z.of_nat (length blocks) <= parents /\
  (forall b, head blocks = Some b -> Block_Hash b = hash) /\
  (forall (i : nat) (b b' : Block),
     blocks !! i = Some b -> blocks !! S i = Some b' ->
     Block_Hash b' = Block_ParentHash b).
Proof.
  unfold GetBlocks.
  destruct (get _ _ _ _ _ _) as [[[r2 c2] w2] tr2] eqn:Hget.
  destruct r2 as [[[ |blocks0| ]|e]|m]; try discriminate.
  intros [= -> <- <- <-].
  destruct (get_success_last _ _ _ _ _ _ _ _ _ _ Hget) as (payload & Hlast & Hparse).
  apply parseBlocks_accepts in Hparse
    as (response & blocks1 & Hdec & [= <-] & Hne & Hle & Hd & Hl).
  simpl in Hle, Hl.
  pose proof (Forall2_length _ _ _ Hd) as Hlen.
  destruct (linkedFrom_lookup _ _ Hl) as [Hhead Hlinks].
  repeat split; try done.
  - by exists payload, response.
  - destruct (Blocks response); [done | simpl in Hlen; lia].
  - lia.
Qed.

(** X9. Asking for no parents cannot succeed: with [parents <= 0] every
    response is rejected, the empty one for being empty and any other for
    being too long, so [GetBlocks] never returns blocks. *)
Theorem GetBlocks_zero_parents (c : client) (hash : Hash) (height parents : Z)
    (w : World) (r : outcome (list Block)) (c' : client) (w' : World)
    (tr : list event) :
  parents <= 0 ->
  GetBlocks c hash height parents w = (r, c', w', tr) ->
  (forall data, exists e,
     parseBlocks (ReqBlock (mkBlockRequest hash height parents)) data = Done (Err e)) /\
  (forall blocks, r <> Done (Ok blocks)).
Proof.
  intros Hparents Hrun. split.
  - intros data. unfold parseBlocks.
    destruct (Unmarshal_BlockResponse data) as [response|]; [|by eexists].
    case_decide as Hlen; [by eexists|].
    destruct (Z.ltb_spec (Parents (mkBlockRequest hash height parents))
                (Z.of_nat (length (Blocks response)))) as [|Hle]; [by eexists|].
    simpl in Hle. lia.
  - intros blocks ->.
    destruct (GetBlocks_chain_bounds _ _ _ _ _ _ _ _ _ Hrun) as [Hpos Hle]. lia.
Qed.

(** X10. The response [GetLeafs] returns is the last response it
    received, with nothing but [More] changed: its sizes are within [Limit],
    it is not an empty answer without proof, and the range-proof verifier
    accepted it on the effective first and last keys with [More] as its
    answer. *)
Theorem GetLeafs_verified (c : client) (req : LeafsRequest) (w : World)
    (response : LeafsResponse) (c' : client) (w' : World) (tr : list event) :
  GetLeafs c req w = (Done (Ok response), c', w', tr) ->
  exists payload resp,
    last (parsedPayloads tr) = Some payload /\
    Unmarshal_LeafsResponse payload = Ok resp /\
    response = setMore resp (More response) /\
    withinLimit req resp /\
    ~ emptyWithoutProof resp /\
    proofPairsUp resp /\
    VerifyRangeProof (Root req) (effectiveFirstKey req) (effectiveLastKey req resp)
      (Keys resp) (Vals resp) (proofStore resp) = Ok (More response).
Proof.
  unfold GetLeafs.
  destruct (get _ _ _ _ _ _) as [[[r2 c2] w2] tr2] eqn:Hget.
  destruct r2 as [[[response0| | ]|e]|m]; try discriminate.
  intros [= -> <- <- <-].
  destruct (get_success_last _ _ _ _ _ _ _ _ _ _ Hget) as (payload & Hlast & Hparse).
  destruct (Unmarshal_LeafsResponse payload) as [resp|e] eqn:Hdec.
  - destruct (parseLeafsResponse_accepts _ _ _ _ Hdec Hparse)
      as (Hlimit & Hne & Hpairs & _).
    destruct (parseLeafsResponse_verified _ _ _ _ Hdec Hparse) as (more & [= ->] & Hv).
    exists payload, resp. simpl. do 6 (split; [done|]). done.
  - unfold parseLeafsResponse in Hparse. rewrite Hdec in Hparse. discriminate.
Qed.

Lemma decodeBlocks_first_failure (pre rest : list bytes) (raw : bytes) (h : Hash)
    (blocks : list Block) :
  decodesTo pre blocks ->
  linkedFrom h blocks ->
  let expected :=
    match last blocks with Some b => Block_ParentHash b | None => h end in
  decodeBlocks (pre ++ raw :: rest) h =
    match rlp_DecodeBytes raw with
    | Err e => Err (ErrUnmarshalResponse e)
    | Ok b =>
        if decide (Block_Hash b = expected)
        then match decodeBlocks rest (Block_ParentHash b) with
             | Ok bs => Ok (blocks ++ b :: bs)
             | Err e => Err e
             end
        else Err (ErrHashMismatchBlock (Block_Hash b) expected)
    end.
Proof.
  unfold decodesTo. revert h blocks.
  induction pre as [|raw0 pre IH]; intros h blocks Hd Hl; cbv zeta.
  - inversion Hd; subst. simpl.
    destruct (rlp_DecodeBytes raw) as [b|e]; [|done].
    repeat case_decide; try done.
  - inversion Hd as [|? b0 ? blocks0 Hb0 Hrest]; subst.
    destruct Hl as [Hh Hl]. simpl. rewrite Hb0.
    rewrite decide_False by (by intros ?).
    rewrite (IH _ _ Hrest Hl). rewrite last_cons.
    destruct (last blocks0) as [blast|].
    + destruct (rlp_DecodeBytes raw) as [b|e]; [|done].
      case_decide; [|done]. by destruct (decodeBlocks rest (Block_ParentHash b)).
    + destruct (rlp_DecodeBytes raw) as [b|e]; [|done].
      case_decide; [|done]. by destruct (decodeBlocks rest (Block_ParentHash b)).
Qed.

(** X11. The block validator stops at the first bad entry: when the
    entries before it decode and link from the requested hash, an entry that
    does not decode is answered with the unmarshal error around the decoder's
    error, and one that decodes to a block with another hash than expected
    (the parent hash of the block before it, or the requested hash for the
    first) with the hash-mismatch error naming both hashes, whatever comes
    after. *)
Theorem parseBlocks_first_failure (req : BlockRequest) (data : bytes)
    (response : BlockResponse) (pre rest : list bytes) (raw : bytes)
    (blocks : list Block) :
  Unmarshal_BlockResponse data = Ok response ->
  Blocks response = pre ++ raw :: rest ->
  Z.of_nat (length (Blocks response)) <= Parents req ->
  decodesTo pre blocks ->
  linkedFrom (BlockHash req) blocks ->
  let expected :=
    match last blocks with Some b => Block_ParentHash b | None => BlockHash req end in
  (forall e, rlp_DecodeBytes raw = Err e ->
     parseBlocks (ReqBlock req) data = Done (Err (ErrUnmarshalResponse e))) /\
  (forall b, rlp_DecodeBytes raw = Ok b -> Block_Hash b <> expected ->
     parseBlocks (ReqBlock req) data
       = Done (Err (ErrHashMismatchBlock (Block_Hash b) expected))).
Proof.
  intros Hdec Hblocks Hle Hd Hl expected.
  assert (forall x, decodeBlocks (Blocks response) (BlockHash req) = Err x ->
                    parseBlocks (ReqBlock req) data = Done (Err x)) as Hparse.
  { intros x Hx. unfold parseBlocks. rewrite Hdec.
    rewrite decide_False by (rewrite Hblocks, length_app; simpl; lia).
    destruct (Z.ltb_spec (Parents req) (Z.of_nat (length (Blocks response))));
      [lia|]. by rewrite Hx. }
  pose proof (decodeBlocks_first_failure pre rest raw (BlockHash req) blocks Hd Hl)
    as Hfirst. cbv zeta in Hfirst. fold expected in Hfirst.
  rewrite <- Hblocks in Hfirst. split.
  - intros e He. apply Hparse. by rewrite Hfirst, He.
  - intros b Hb Hne. apply Hparse. rewrite Hfirst, Hb. by rewrite decide_False.
Qed.

(** A call whose validator cannot panic, on a client whose cursor is in
    range and whose retry delay is positive (or that has one attempt at
    most), does not panic. *)
Lemma get_no_panic (c : client) (request : Request) (attempts : nat) (delay : Z)
    (parseFn : parseResponseFn) (w : World) r c' w' tr :
  stateSyncNodes c = [] \/ cursorInRange c ->
  0 < delay \/ (attempts <= 1)%nat ->
  (forall payload m, parseFn request payload <> Panic m) ->
  get c request attempts delay parseFn w = (r, c', w', tr) ->
  forall m, r <> Panic m.
Proof.
  intros Hready Hdelay Hparse Hget m ->. unfold get in Hget.
  destruct (RequestToBytes request) as [b|e]; [|discriminate].
  destruct (attemptLoop _ _ _ _ _ _ _ _ _ _) as [[[r2 c2] w2] tr2] eqn:Hrec.
  injection Hget as -> <- <- <-.
  apply attemptLoop_exhausts in Hrec as (_ & _ & Hr); try done; lia.
Qed.

(** X12. On a client whose cursor is in range (or that has no fixed
    peers) and whose retry delay is positive (or that has one attempt at
    most), none of the three entry points panics: the type assertions of the
    validators and of the entry points always hold. *)
Theorem entry_points_no_panic (c : client) :
  stateSyncNodes c = [] \/ cursorInRange c ->
  0 < maxRetryDelay c \/ (maxAttempts c <= 1)%nat ->
  (forall req w m, (GetLeafs c req w).1.1.1 <> Panic m) /\
  (forall hash height parents w m,
     (GetBlocks c hash height parents w).1.1.1 <> Panic m) /\
  (forall hash w m, (GetCode c hash w).1.1.1 <> Panic m).
Proof.
  intros Hready Hdelay. repeat split.
  - intros req w m. unfold GetLeafs.
    destruct (get _ _ _ _ _ _) as [[[r2 c2] w2] tr2] eqn:Hget.
    pose proof (get_no_panic _ _ _ _ _ _ _ _ _ _ Hready Hdelay
                  (parseLeafsResponse_no_panic req) Hget) as Hnp.
    destruct r2 as [[[ | | ]|e]|m']; simpl; try done. by destruct (Hnp m').
  - intros hash height parents w m. unfold GetBlocks.
    destruct (get _ _ _ _ _ _) as [[[r2 c2] w2] tr2] eqn:Hget.
    pose proof (get_no_panic _ _ _ _ _ _ _ _ _ _ Hready Hdelay
                  (parseBlocks_no_panic (mkBlockRequest hash height parents)) Hget)
      as Hnp.
    destruct r2 as [[[r0|bs|r0]|e]|m']; simpl; try done.
    + destruct (get_success_last _ _ _ _ _ _ _ _ _ _ Hget) as (payload & _ & Hp).
      apply parseBlocks_accepts in Hp as (? & ? & _ & [=] & _).
    + destruct (get_success_last _ _ _ _ _ _ _ _ _ _ Hget) as (payload & _ & Hp).
      apply parseBlocks_accepts in Hp as (? & ? & _ & [=] & _).
    + by destruct (Hnp m').
  - intros hash w m. unfold GetCode.
    destruct (get _ _ _ _ _ _) as [[[r2 c2] w2] tr2] eqn:Hget.
    pose proof (get_no_panic _ _ _ _ _ _ _ _ _ _ Hready Hdelay
                  (parseCode_no_panic (mkCodeRequest hash)) Hget) as Hnp.
    destruct r2 as [[[r0|bs|r0]|e]|m']; simpl; try done.
    + destruct (get_success_last _ _ _ _ _ _ _ _ _ _ Hget) as (payload & _ & Hp).
      destruct (Unmarshal_CodeResponse payload) as [resp|e] eqn:Hdec.
      * rewrite (parseCode_spec _ _ _ Hdec) in Hp. repeat case_decide; discriminate.
      * unfold parseCode in Hp. rewrite Hdec in Hp. discriminate.
    + destruct (get_success_last _ _ _ _ _ _ _ _ _ _ Hget) as (payload & _ & Hp).
      destruct (Unmarshal_CodeResponse payload) as [resp|e] eqn:Hdec.
      * rewrite (parseCode_spec _ _ _ Hdec) in Hp. repeat case_decide; discriminate.
      * unfold parseCode in Hp. rewrite Hdec in Hp. discriminate.
    + by destruct (Hnp m').
Qed.

Lemma get_error_inv (c : client) (request : Request) (attempts : nat) (delay : Z)
    (parseFn : parseResponseFn) (w : World) e c' w' tr :
  get c request attempts delay parseFn w = (Done (Err e), c', w', tr) ->
  (RequestToBytes request = Err e /\ attemptsMade tr = O) \/
  (e = ErrExceededRetryLimit attempts (last (loggedErrors tr)) /\
   attemptsMade tr = attempts).
Proof.
  unfold get. destruct (RequestToBytes request) as [b|e'].
  - destruct (attemptLoop _ _ _ _ _ _ _ _ _ _) as [[[r2 c2] w2] tr2] eqn:Hrec.
    intros [= -> <- <- <-]. right.
    destruct (attemptLoop_error _ _ _ _ _ _ _ _ _ _ _ _ _ _ _ Hrec eq_refl)
      as (Hmade & Hlogged & ->).
    unfold attemptsMade in *. simpl. split; [|done].
    by destruct (last (loggedErrors tr2)).
  - intros [= <- <- <- <-]. by left.
Qed.

Lemma parseLeafsResponse_kind (req : LeafsRequest) (payload : bytes) (v : Parsed) :
  parseLeafsResponse (ReqLeafs req) payload = Done (Ok v) -> exists r, v = PLeafs r.
Proof.
  intros Hparse.
  destruct (Unmarshal_LeafsResponse payload) as [resp|e] eqn:Hdec.
  - destruct (parseLeafsResponse_accepts _ _ _ _ Hdec Hparse)
      as (_ & _ & _ & more & -> & _).
    by eexists.
  - unfold parseLeafsResponse in Hparse. rewrite Hdec in Hparse. discriminate.
Qed.

(** X13. An error from an entry point is the error of [get], as it is for
    [GetLeafs] and under a could-not-get wrapper naming the hash for
    [GetBlocks] and [GetCode]; and the error of [get] is the encoding error
    of the request, with no attempt made, or the retry-limit error after
    [maxAttempts] attempts. The unexpected-type error of [GetLeafs] never
    comes from its type assertion. *)
Theorem entry_point_errors (c : client) (w : World) (e : error) (c' : client)
    (w' : World) (tr : list event) :
  let outcomes (request : Request) (e0 : error) :=
    (RequestToBytes request = Err e0 /\ attemptsMade tr = O) \/
    (e0 = ErrExceededRetryLimit (maxAttempts c) (last (loggedErrors tr)) /\
     attemptsMade tr = maxAttempts c) in
  (forall req,
     GetLeafs c req w = (Done (Err e), c', w', tr) -> outcomes (ReqLeafs req) e) /\
  (forall hash height parents,
     GetBlocks c hash height parents w = (Done (Err e), c', w', tr) ->
     exists e0, e = ErrCouldNotGetBlocks hash e0 /\
                outcomes (ReqBlock (mkBlockRequest hash height parents)) e0) /\
  (forall hash,
     GetCode c hash w = (Done (Err e), c', w', tr) ->
     exists e0, e = ErrCouldNotGetCode hash e0 /\
                outcomes (ReqCode (mkCodeRequest hash)) e0).
Proof.
  cbv zeta. split; [|split].
  - intros req. unfold GetLeafs.
    destruct (get _ _ _ _ _ _) as [[[r2 c2] w2] tr2] eqn:Hget.
    destruct r2 as [[[r0|bs|r0]|e0]|m]; try discriminate.
    + intros _.
      destruct (get_success_last _ _ _ _ _ _ _ _ _ _ Hget) as (payload & _ & Hp).
      by apply parseLeafsResponse_kind in Hp as [? [=]].
    + intros _.
      destruct (get_success_last _ _ _ _ _ _ _ _ _ _ Hget) as (payload & _ & Hp).
      by apply parseLeafsResponse_kind in Hp as [? [=]].
    + intros [= -> <- <- <-]. by apply get_error_inv in Hget.
  - intros hash height parents. unfold GetBlocks.
    destruct (get _ _ _ _ _ _) as [[[r2 c2] w2] tr2] eqn:Hget.
    destruct r2 as [[[r0|bs|r0]|e0]|m]; try discriminate.
    intros [= <- <- <- <-]. exists e0. split; [done|]. by apply get_error_inv in Hget.
  - intros hash. unfold GetCode.
    destruct (get _ _ _ _ _ _) as [[[r2 c2] w2] tr2] eqn:Hget.
    destruct r2 as [[[r0|bs|r0]|e0]|m]; try discriminate.
    intros [= <- <- <- <-]. exists e0. split; [done|]. by apply get_error_inv in Hget.
Qed.

(** X14. Once a response carries keys, the validator does not look at
    the request's [End]: two requests that differ in [End] only (and, when
    [Start] is nil, have ends of one length) get the same answer to the same
    response. The returned keys are not compared with [End]. *)
Theorem parseLeafsResponse_ignores_End (root : Hash) (start : option bytes)
    (end1 end2 : bytes) (limit : Z) (data : bytes) (resp : LeafsResponse) :
  Unmarshal_LeafsResponse data = Ok resp ->
  Keys resp <> [] ->
  is_Some start \/ length end1 = length end2 ->
  parseLeafsResponse (ReqLeafs (mkLeafsRequest root start end1 limit)) data
    = parseLeafsResponse (ReqLeafs (mkLeafsRequest root start end2 limit)) data.
Proof.
  intros Hdec Hkeys Hstart.
  assert (forall proof,
            verifyLeafs (mkLeafsRequest root start end1 limit) resp proof
            = verifyLeafs (mkLeafsRequest root start end2 limit) resp proof) as Hverify.
  { intros proof. rewrite !verifyLeafs_spec.
    unfold effectiveFirstKey, effectiveLastKey. simpl.
    assert (exists k, last (Keys resp) = Some k) as [k ->].
    { destruct (last (Keys resp)) as [k|] eqn:Hlast; [by exists k|].
      by apply last_None in Hlast. }
    destruct Hstart as [[s ->] | Hlen]; [done|].
    destruct start; [done|].
    by rewrite <- !replicate_const_map, Hlen. }
  unfold parseLeafsResponse. rewrite Hdec. simpl.
  destruct (_ || _); [done|]. case_decide; [done|].
  case_decide; [|done]. case_decide; [done|].
  by destruct (putProofs _ _ _ _) as [[proof|]|].
Qed.

(** X15. A client fresh from [NewClient] with [N] fixed peers starts its
    rotation at the second peer of the list: the [i]-th attempt of its first
    call goes to the peer at [(1 + i) mod N], so the peer at index 0 comes
    last in the first round. *)
Theorem fresh_client_rotation (attempts : nat) (delay : Z) (nodes : list NodeID)
    (request : Request) (parseFn : parseResponseFn) (w : World)
    (r : outcome Parsed) (c' : client) (w' : World) (tr : list event) :
  nodes <> [] ->
  Z.of_nat (length nodes) < 2 ^ 63 ->
  get (NewClient attempts delay nodes) request attempts delay parseFn w
    = (r, c', w', tr) ->
  forall i : nat, (i < attemptsMade tr)%nat ->
    peersSelected tr !! i = nodes !! ((1 + i) mod length nodes)%nat.
Proof.
  intros Hne Hlen Hget i Hi.
  pose proof (NewClient_cursorInRange attempts delay nodes Hne Hlen) as Hok.
  destruct (get_rotation _ _ _ _ _ _ _ _ _ _ Hok Hget) as (_ & _ & _ & _ & Hpeers).
  rewrite (Hpeers i Hi). cbn [NewClient stateSyncNodes nodeIdx]. f_equal.
  assert (0 < Z.of_nat (length nodes)) as Hpos by (destruct nodes; [done | simpl; lia]).
  apply Nat2Z.inj. rewrite Z2Nat.id by (apply Z.mod_pos_bound; lia).
  rewrite Nat2Z.inj_mod. f_equal. lia.
Qed.

(** X16. A call never sleeps longer in total than [attempts - 1] pauses
    of less than the retry delay each. *)
Theorem get_total_sleep (c : client) (request : Request) (attempts : nat) (delay : Z)
    (parseFn : parseResponseFn) (w : World) (r : outcome Parsed) (c' : client)
    (w' : World) (tr : list event) :
  stateSyncNodes c = [] \/ cursorInRange c ->
  get c request attempts delay parseFn w = (r, c', w', tr) ->
  0 <= totalSleep tr <= Z.of_nat (pred attempts) * Z.max 0 (delay - 1).
Proof.
  intros Hready Hget.
  assert (Forall (fun d => 0 <= d < delay) (sleeps tr) /\
          (length (sleeps tr) <= pred attempts)%nat) as [Hall Hcount].
  { unfold get in Hget. destruct (RequestToBytes request) as [b|e].
    - destruct (attemptLoop _ _ _ _ _ _ _ _ _ _) as [[[r2 c2] w2] tr2] eqn:Hrec.
      injection Hget as <- <- <- <-.
      destruct (attemptLoop_bound _ _ _ _ _ _ _ _ _ _ _ _ _ _ Hrec) as (Hbound & _).
      apply attemptLoop_sleeps in Hrec as (Hall & _ & Hlen); [|done].
      rewrite decide_True in Hlen by done. simpl. split; [done|]. lia.
    - injection Hget as <- <- <- <-. simpl. split; [constructor | lia]. }
  unfold totalSleep. revert Hcount. generalize (pred attempts) as n.
  induction Hall as [|d ds Hd Hds IH]; intros n Hn; simpl.
  - split; [lia | apply Z.mul_nonneg_nonneg; lia].
  - destruct n as [|n]; [simpl in Hn; lia|].
    specialize (IH n ltac:(simpl in Hn; lia)).
    assert (d <= Z.max 0 (delay - 1)) as Hmax by lia.
    rewrite Nat2Z.inj_succ, Z.mul_succ_l. lia.
Qed.

End Calls.

(** ** The properties on the toy environment *)

(** C5 (counterexample). A response with no proof keys and one proof value
    is accepted, although its proof keys and proof values differ in number. *)
Lemma stray_proof_value_accepted :
  parseLeafsResponse (E := toyEnv) (ReqLeafs strayProofRequest) strayProofValue
    = Done (Ok (PLeafs strayProofResponse)) /\
  length (ProofKeys strayProofResponse) <> length (ProofVals strayProofResponse).
Proof. split; [reflexivity | discriminate]. Qed.

Lemma parseBlocks_accepts_iff_witness :
  Unmarshal_BlockResponse (Env := toyEnv) threeBlocks = Ok threeBlocksResponse /\
  parseBlocks (E := toyEnv) (ReqBlock threeBlocksRequest) threeBlocks
    = Done (Ok (PBlocks (E := toyEnv) threeBlocksDecoded)).
Proof.
  split; [reflexivity|].
  apply (proj2 (parseBlocks_accepts_iff (E := toyEnv) threeBlocksRequest threeBlocks
                  threeBlocksResponse (PBlocks (E := toyEnv) threeBlocksDecoded) eq_refl)).
  exists threeBlocksDecoded.
  split; [reflexivity|]. split; [discriminate|]. split; [cbn; lia|].
  split; [repeat constructor | cbn; tauto].
Defined.

Lemma parseLeafsResponse_limit_witness :
  Unmarshal_LeafsResponse (Env := toyEnv) twoKeys = Ok twoKeysResponse /\
  parseLeafsResponse (E := toyEnv) (ReqLeafs oneLeafRequest) twoKeys
    = Done (Err (ErrTooManyLeaves 2 1)).
Proof.
  split; [reflexivity|].
  apply (proj1 (parseLeafsResponse_limit (E := toyEnv) oneLeafRequest twoKeys
                  twoKeysResponse eq_refl)).
  left. cbn. lia.
Defined.

Lemma parseLeafsResponse_proof_pairs_witness :
  Unmarshal_LeafsResponse (Env := toyEnv) unpairedProof = Ok unpairedProofResponse /\
  ProofKeys unpairedProofResponse <> [] /\
  exists e, parseLeafsResponse (E := toyEnv) (ReqLeafs strayProofRequest) unpairedProof
            = Done (Err e).
Proof.
  split; [reflexivity|]. split; [discriminate|].
  apply (proj1 (parseLeafsResponse_proof_pairs (E := toyEnv) strayProofRequest
                  unpairedProof unpairedProofResponse eq_refl ltac:(discriminate))).
  discriminate.
Defined.

Lemma parseLeafsResponse_empty_keys_witness :
  Unmarshal_LeafsResponse (Env := toyEnv) noLeafs = Ok noLeafsResponse /\
  Keys noLeafsResponse = [] /\
  exists e, parseLeafsResponse (E := toyEnv) (ReqLeafs strayProofRequest) noLeafs
            = Done (Err e) /\
            (e = ErrEmptyKeysNoProof \/ e = ErrTooManyLeaves 0 (Limit strayProofRequest)).
Proof.
  split; [reflexivity|]. split; [reflexivity|].
  apply (proj1 (parseLeafsResponse_empty_keys (E := toyEnv) strayProofRequest
                  noLeafs noLeafsResponse eq_refl eq_refl)).
  reflexivity.
Defined.

Lemma parseLeafsResponse_verifies_witness :
  Unmarshal_LeafsResponse (Env := toyEnv) provenLeaf = Ok provenLeafResponse /\
  withinLimit strayProofRequest provenLeafResponse /\
  ~ emptyWithoutProof provenLeafResponse /\
  proofPairsUp provenLeafResponse /\
  parseLeafsResponse (E := toyEnv) (ReqLeafs strayProofRequest) provenLeaf
    = Done (Ok (PLeafs provenLeafResponse)).
Proof.
  assert (withinLimit strayProofRequest provenLeafResponse) as Hlimit
    by (split; cbn; lia).
  assert (~ emptyWithoutProof provenLeafResponse) as Hne
    by (intros [Hk _]; discriminate Hk).
  assert (proofPairsUp provenLeafResponse) as Hpairs by (intros _; reflexivity).
  split; [reflexivity|]. do 3 (split; [assumption|]).
  rewrite (parseLeafsResponse_verifies (E := toyEnv) strayProofRequest provenLeaf
             provenLeafResponse eq_refl Hlimit Hne Hpairs).
  reflexivity.
Defined.


Lemma get_encodes_once_witness :
  get (E := toyEnv) noDelayClient unencodable 2 0 parseLeafsResponse silentWorld
    = (Done (Err (Foreign "codec: limit does not fit uint16")),
       noDelayClient, silentWorld, [EvMarshal unencodable]) /\
  marshalCount [EvMarshal unencodable] = 1%nat.
Proof.
  split; [reflexivity|].
  apply (get_encodes_once (E := toyEnv) noDelayClient unencodable 2 0
           parseLeafsResponse silentWorld _ _ _ _ eq_refl).
Defined.

Lemma get_round_robin_witness :
  cursorInRange threePeers /\
  let tr := (get (E := toyEnv) threePeers (ReqCode (mkCodeRequest [x07])) 4 5
               parseCode silentWorld).2 in
  attemptsMade tr = 4%nat /\
  take 3 (drop 1 (peersSelected tr)) ≡ₚ [[x01]; [x02]; [x03]].
Proof.
  assert (cursorInRange threePeers) as Hok by (split; cbn; lia).
  split; [assumption|]. cbv zeta. split; [reflexivity|].
  apply (proj2 (proj2 (proj2 (proj2 (proj2 (proj2
           (get_round_robin (E := toyEnv) threePeers (ReqCode (mkCodeRequest [x07])) 4 5
              parseCode silentWorld _ _ _ _ Hok eq_refl)))))) 1%nat).
  cbn. lia.
Defined.

Lemma retry_panics_without_delay_witness :
  (0 < 1)%nat /\ 0 <= 0 /\
  attemptLoop (E := toyEnv) (ReqCode (mkCodeRequest [x07])) [x02; x07] 2 0 parseCode
    1 1 (Some (Foreign "peer: no response")) noDelayClient silentWorld
    = (Panic "invalid argument to Int63n", noDelayClient, silentWorld, []).
Proof.
  assert (0 < 1)%nat as Hattempt by lia.
  assert (0 <= 0) as Hdelay by lia.
  split; [assumption|]. split; [assumption|].
  exact (proj2 (retry_panics_without_delay (E := toyEnv) (ReqCode (mkCodeRequest [x07]))
                  [x02; x07] 2 0 parseCode 0 1 (Some (Foreign "peer: no response"))
                  noDelayClient silentWorld Hattempt Hdelay)).
Defined.

Lemma get_panics_without_delay_witness :
  let run := get (E := toyEnv) noDelayClient (ReqCode (mkCodeRequest [x07]))
               2 0 parseCode silentWorld in
  RequestToBytes (Env := toyEnv) (ReqCode (mkCodeRequest [x07])) = Ok [x02; x07] /\
  run.1.1.1 = Panic "invalid argument to Int63n" /\
  attemptsMade run.2 = 1%nat /\
  length (loggedErrors run.2) = 1%nat.
Proof.
  intros run. split; [reflexivity|].
  apply (get_panics_without_delay (E := toyEnv) noDelayClient
           (ReqCode (mkCodeRequest [x07])) 2 0 parseCode silentWorld
           run.1.1.1 run.1.1.2 run.1.2 run.2 [x02; x07]).
  - reflexivity.
  - left. reflexivity.
  - lia.
  - lia.
  - intros payload m. apply parseCode_no_panic.
  - reflexivity.
  - intros v. discriminate.
Defined.

Lemma get_exhausts_witness :
  let run := get (E := toyEnv) threePeers (ReqCode (mkCodeRequest [x07]))
               4 5 parseCode silentWorld in
  RequestToBytes (Env := toyEnv) (ReqCode (mkCodeRequest [x07])) = Ok [x02; x07] /\
  attemptsMade run.2 = 4%nat /\
  length (loggedErrors run.2) = 4%nat /\
  run.1.1.1 = Done (Err (ErrExceededRetryLimit 4 (last (loggedErrors run.2)))).
Proof.
  assert (cursorInRange threePeers) as Hok by (split; cbn; lia).
  intros run. split; [reflexivity|].
  apply (get_exhausts (E := toyEnv) threePeers (ReqCode (mkCodeRequest [x07])) 4 5
           parseCode silentWorld run.1.1.1 run.1.1.2 run.1.2 run.2 [x02; x07]).
  - reflexivity.
  - right. exact Hok.
  - left. lia.
  - intros payload m. apply parseCode_no_panic.
  - reflexivity.
  - intros v. discriminate.
Defined.

Lemma get_sleeps_witness :
  let run := get (E := toyEnv) anyPeerClient (ReqCode (mkCodeRequest [x07; x08]))
               3 5 parseCode flakyWorld in
  sleeps run.2 = [3; 4] /\
  Forall (fun d => 0 <= d < 5) (sleeps run.2) /\
  sleepsBeforeFirstSend run.2 = [] /\
  length (sleeps run.2) = pred (attemptsMade run.2).
Proof.
  intros run. split; [reflexivity|].
  apply (get_sleeps (E := toyEnv) anyPeerClient (ReqCode (mkCodeRequest [x07; x08])) 3 5
           parseCode flakyWorld run.1.1.1 run.1.1.2 run.1.2 run.2).
  - left. reflexivity.
  - reflexivity.
Defined.

Lemma get_success_stops_witness :
  let run := get (E := toyEnv) anyPeerClient (ReqCode (mkCodeRequest [x07; x08]))
               3 5 parseCode flakyWorld in
  run.1.1.1 = Done (Ok (PCode (E := toyEnv) (mkCodeResponse [x07; x08]))) /\
  attemptsMade run.2 = 3%nat /\
  attemptsMade run.2 = S (length (loggedErrors run.2)).
Proof.
  intros run. split; [reflexivity|]. split; [reflexivity|].
  destruct (get_success_stops (E := toyEnv) anyPeerClient
              (ReqCode (mkCodeRequest [x07; x08])) 3 5 parseCode flakyWorld
              (PCode (E := toyEnv) (mkCodeResponse [x07; x08]))
              run.1.1.2 run.1.2 run.2 eq_refl)
    as (b & pre & sent & payload & _ & _ & _ & _ & _ & Hmade & _).
  exact Hmade.
Defined.

Lemma get_attempt_bound_witness :
  let run := get (E := toyEnv) threePeers (ReqCode (mkCodeRequest [x07]))
               4 5 parseCode silentWorld in
  loggedAttempts run.2 = [0; 1; 2; 3]%nat /\
  (attemptsMade run.2 <= 4)%nat /\
  (length (loggedErrors run.2) <= attemptsMade run.2)%nat /\
  (length (parsedPayloads run.2) <= attemptsMade run.2)%nat /\
  loggedAttempts run.2 = seq 0 (length (loggedErrors run.2)).
Proof.
  intros run. split; [reflexivity|].
  exact (get_attempt_bound (E := toyEnv) threePeers (ReqCode (mkCodeRequest [x07]))
           4 5 parseCode silentWorld run.1.1.1 run.1.1.2 run.1.2 run.2 eq_refl).
Defined.

Lemma get_error_kinds_witness :
  let run := get (E := toyEnv) threePeers (ReqCode (mkCodeRequest [x07]))
               4 5 parseCode silentWorld in
  let e := ErrExceededRetryLimit 4 (Some (Foreign "peer: no response")) in
  run.1.1.1 = Done (Err e) /\
  ((RequestToBytes (Env := toyEnv) (ReqCode (mkCodeRequest [x07])) = Err e /\
    attemptsMade run.2 = O) \/
   (exists requestBytes,
      RequestToBytes (Env := toyEnv) (ReqCode (mkCodeRequest [x07])) = Ok requestBytes) /\
   e = ErrExceededRetryLimit 4 (last (loggedErrors run.2)) /\
   attemptsMade run.2 = 4%nat /\
   length (loggedErrors run.2) = 4%nat).
Proof.
  intros run e. split; [reflexivity|].
  exact (get_error_kinds (E := toyEnv) threePeers (ReqCode (mkCodeRequest [x07]))
           4 5 parseCode silentWorld e run.1.1.2 run.1.2 run.2 eq_refl).
Defined.

Lemma get_keeps_config_witness :
  let run := get (E := toyEnv) threePeers (ReqCode (mkCodeRequest [x07]))
               4 5 parseCode silentWorld in
  nodeIdx run.1.1.2 = 1 /\
  stateSyncNodes run.1.1.2 = stateSyncNodes threePeers /\
  maxAttempts run.1.1.2 = maxAttempts threePeers /\
  maxRetryDelay run.1.1.2 = maxRetryDelay threePeers.
Proof.
  intros run. split; [reflexivity|].
  destruct (get_keeps_config (E := toyEnv) threePeers (ReqCode (mkCodeRequest [x07]))
              4 5 parseCode silentWorld run.1.1.1 run.1.1.2 run.1.2 run.2 eq_refl)
    as (Hnodes & Hattempts & Hdelay & _).
  exact (conj Hnodes (conj Hattempts Hdelay)).
Defined.

Lemma get_twice_rotation_witness :
  let run1 := get (E := toyEnv) threePeers (ReqCode (mkCodeRequest [x07]))
                4 5 parseCode silentWorld in
  let run2 := get (E := toyEnv) run1.1.1.2 (ReqCode (mkCodeRequest [x08]))
                2 5 parseCode run1.1.2 in
  cursorInRange threePeers /\
  peersSelected run1.2 ++ peersSelected run2.2
    = [[x02]; [x03]; [x01]; [x02]; [x03]; [x01]] /\
  nodeIdx run2.1.1.2
    = (nodeIdx threePeers + Z.of_nat (attemptsMade run1.2 + attemptsMade run2.2)) mod 3.
Proof.
  assert (cursorInRange threePeers) as Hok by (split; cbn; lia).
  intros run1 run2. split; [assumption|]. split; [reflexivity|].
  destruct (get_twice_rotation (E := toyEnv) threePeers
              (ReqCode (mkCodeRequest [x07])) (ReqCode (mkCodeRequest [x08]))
              4 2 5 5 parseCode parseCode silentWorld
              run1.1.1.1 run1.1.1.2 run1.1.2 run1.2
              run2.1.1.1 run2.1.1.2 run2.1.2 run2.2 Hok eq_refl eq_refl)
    as (_ & Hcur & _).
  exact Hcur.
Defined.

Lemma GetBlocks_chain_witness :
  let run := GetBlocks (E := toyEnv) singleShot [x01] 100 3 blocksWorld in
  run.1.1.1 = Done (Ok threeBlocksDecoded) /\
  (0 < length threeBlocksDecoded)%nat /\
  Z.of_nat (length threeBlocksDecoded) <= 3.
Proof.
  intros run. split; [reflexivity|].
  destruct (GetBlocks_chain (E := toyEnv) singleShot [x01] 100 3 blocksWorld
              threeBlocksDecoded run.1.1.2 run.1.2 run.2 eq_refl)
    as (_ & Hpos & Hle & _).
  exact (conj Hpos Hle).
Defined.

Lemma GetBlocks_zero_parents_witness :
  let run := GetBlocks (E := toyEnv) singleShot [x01] 100 0 blocksWorld in
  0 <= 0 /\
  run.1.1.1 = Done (Err (ErrCouldNotGetBlocks [x01]
                           (ErrExceededRetryLimit 1 (Some errTooManyBlocks)))) /\
  forall blocks, run.1.1.1 <> Done (Ok blocks).
Proof.
  assert (0 <= 0) as Hzero by lia.
  intros run. split; [assumption|]. split; [reflexivity|].
  exact (proj2 (GetBlocks_zero_parents (E := toyEnv) singleShot [x01] 100 0 blocksWorld
                  run.1.1.1 run.1.1.2 run.1.2 run.2 Hzero eq_refl)).
Defined.

Lemma GetLeafs_verified_witness :
  let run := GetLeafs (E := toyEnv) anyPeerClient strayProofRequest leafWorld in
  run.1.1.1 = Done (Ok provenLeafResponse) /\
  exists payload resp,
    last (parsedPayloads run.2) = Some payload /\
    Unmarshal_LeafsResponse (Env := toyEnv) payload = Ok resp /\
    provenLeafResponse = setMore resp (More provenLeafResponse) /\
    withinLimit strayProofRequest resp /\
    ~ emptyWithoutProof resp /\
    proofPairsUp resp /\
    VerifyRangeProof (E := toyEnv) (Root strayProofRequest)
      (effectiveFirstKey strayProofRequest) (effectiveLastKey strayProofRequest resp)
      (Keys resp) (Vals resp) (proofStore resp) = Ok (More provenLeafResponse).
Proof.
  intros run. split; [reflexivity|].
  exact (GetLeafs_verified (E := toyEnv) anyPeerClient strayProofRequest leafWorld
           provenLeafResponse run.1.1.2 run.1.2 run.2 eq_refl).
Defined.

Lemma parseBlocks_first_failure_witness :
  Unmarshal_BlockResponse (Env := toyEnv) brokenChain
    = Ok (mkBlockResponse [[x01; x02]; [x09; x03]; [x03; x04]]) /\
  parseBlocks (E := toyEnv) (ReqBlock threeBlocksRequest) brokenChain
    = Done (Err (ErrHashMismatchBlock [x09] [x02])).
Proof.
  split; [reflexivity|].
  assert (decodesTo (E := toyEnv) [[x01; x02]] [mkToyBlock [x01] [x02]]) as Hd
    by (repeat constructor).
  assert (linkedFrom (E := toyEnv) (BlockHash threeBlocksRequest)
            [mkToyBlock [x01] [x02]]) as Hl by (cbn; tauto).
  assert (Z.of_nat (length [[x01; x02]; [x09; x03]; [x03; x04]])
          <= Parents threeBlocksRequest) as Hle by (cbn; lia).
  apply (proj2 (parseBlocks_first_failure (E := toyEnv) threeBlocksRequest brokenChain
                  (mkBlockResponse [[x01; x02]; [x09; x03]; [x03; x04]])
                  [[x01; x02]] [[x03; x04]] [x09; x03] [mkToyBlock [x01] [x02]]
                  eq_refl eq_refl Hle Hd Hl) (mkToyBlock [x09] [x03]) eq_refl).
  discriminate.
Defined.

Lemma entry_points_no_panic_witness :
  stateSyncNodes anyPeerClient = [] /\
  0 < maxRetryDelay anyPeerClient /\
  forall m, (GetCode (E := toyEnv) anyPeerClient [x07] silentWorld).1.1.1 <> Panic m.
Proof.
  assert (0 < maxRetryDelay anyPeerClient) as Hdelay by (cbn; lia).
  split; [reflexivity|]. split; [assumption|].
  exact (proj2 (proj2 (entry_points_no_panic (E := toyEnv) anyPeerClient
                         (or_introl eq_refl) (or_introl Hdelay))) [x07] silentWorld).
Defined.

Lemma entry_point_errors_witness :
  let run := GetCode (E := toyEnv) threePeers [x07] silentWorld in
  let e := ErrCouldNotGetCode [x07]
             (ErrExceededRetryLimit 4 (Some (Foreign "peer: no response"))) in
  run.1.1.1 = Done (Err e) /\
  exists e0, e = ErrCouldNotGetCode [x07] e0 /\
    ((RequestToBytes (Env := toyEnv) (ReqCode (mkCodeRequest [x07])) = Err e0 /\
      attemptsMade run.2 = O) \/
     (e0 = ErrExceededRetryLimit (maxAttempts threePeers) (last (loggedErrors run.2)) /\
      attemptsMade run.2 = maxAttempts threePeers)).
Proof.
  intros run e. split; [reflexivity|].
  exact (proj2 (proj2 (entry_point_errors (E := toyEnv) threePeers silentWorld e
                         run.1.1.2 run.1.2 run.2)) [x07] eq_refl).
Defined.

Lemma parseLeafsResponse_ignores_End_witness :
  Unmarshal_LeafsResponse (Env := toyEnv) provenLeaf = Ok provenLeafResponse /\
  Keys provenLeafResponse <> [] /\
  parseLeafsResponse (E := toyEnv) (ReqLeafs (mkLeafsRequest [x0a; x0b] None [xff] 10))
    provenLeaf
  = parseLeafsResponse (E := toyEnv) (ReqLeafs (mkLeafsRequest [x0a; x0b] None [x00] 10))
      provenLeaf.
Proof.
  assert (Keys provenLeafResponse <> []) as Hkeys by discriminate.
  split; [reflexivity|]. split; [assumption|].
  exact (parseLeafsResponse_ignores_End (E := toyEnv) [x0a; x0b] None [xff] [x00] 10
           provenLeaf provenLeafResponse eq_refl Hkeys (or_intror eq_refl)).
Defined.

Lemma fresh_client_rotation_witness :
  let run := get (E := toyEnv) threePeers (ReqCode (mkCodeRequest [x07]))
               4 5 parseCode silentWorld in
  stateSyncNodes threePeers <> [] /\
  peersSelected run.2 !! 0%nat = Some [x02].
Proof.
  assert ([[x01]; [x02]; [x03]] <> ([] : list (list byte))) as Hne by discriminate.
  assert (Z.of_nat (length [[x01]; [x02]; [x03]]) < 2 ^ 63) as Hlen by (cbn; lia).
  assert (0 < 4)%nat as Hi by lia.
  intros run. split; [assumption|].
  exact (fresh_client_rotation (E := toyEnv) 4 5 [[x01]; [x02]; [x03]]
           (ReqCode (mkCodeRequest [x07])) parseCode silentWorld
           run.1.1.1 run.1.1.2 run.1.2 run.2 Hne Hlen eq_refl 0%nat Hi).
Defined.

Lemma get_total_sleep_witness :
  let run := get (E := toyEnv) anyPeerClient (ReqCode (mkCodeRequest [x07; x08]))
               3 5 parseCode flakyWorld in
  totalSleep run.2 = 7 /\
  0 <= totalSleep run.2 <= Z.of_nat (pred 3) * Z.max 0 (5 - 1).
Proof.
  intros run. split; [reflexivity|].
  exact (get_total_sleep (E := toyEnv) anyPeerClient (ReqCode (mkCodeRequest [x07; x08]))
           3 5 parseCode flakyWorld run.1.1.1 run.1.1.2 run.1.2 run.2
           (or_introl eq_refl) eq_refl).
Defined.

